(** * Protobuf message producer: descriptor loading, sample corpus, publish loop

    A shallow embedding of [docker/scripts/produce_messages.py]:
    - [load_descriptors]: the two-phase linking of the files of a descriptor
      set into file descriptor objects (lines 23-61);
    - [create_sample_messages]: the lookup of the [User], [Order] and
      [Address] message types and the index-driven sample corpus (63-141);
    - [main]: the initial burst and the endless publish loop (143-218);
    and of [docker/scripts/test_protobuf_message.py]:
    - [create_test_user_message] and the script around it.

    Python objects that are shared by reference (file descriptors) live in an
    explicit heap; the [descriptors] dict keeps Python's insertion order;
    exceptions and the endless loop are results of type [Outcome]. *)

From stdpp Require Import base option list strings pretty.
From Stdlib Require Import ZArith Lia PrimFloat.

#[local] Set Warnings "-register-all,-inexact-float".

Open Scope Z_scope.

(** ** Outcomes of Python code *)

Inductive Exn :=
| ValueError (msg : string)
| AttributeError (field : string)
| IndexError
| OSError (path : string)
| KafkaError (call : nat).

(** [OutOfFuel] is only produced by the loops that are run on fuel: it means
    "still running after the given number of iterations". *)
Inductive Outcome (A : Type) :=
| Return (a : A)
| Raise (e : Exn)
| OutOfFuel.
Arguments Return {A} a.
Arguments Raise {A} e.
Arguments OutOfFuel {A}.

Definition outcome_bind {A B} (f : A → Outcome B) (m : Outcome A) : Outcome B :=
  match m with
  | Return a => f a
  | Raise e => Raise e
  | OutOfFuel => OutOfFuel
  end.

#[global] Instance outcome_ret : MRet Outcome := @Return.
#[global] Instance outcome_mbind : MBind Outcome := @outcome_bind.

(** ** Python's insertion-ordered dict with string keys *)

Section dict.
Context {V : Type}.

Definition dict := list (string * V).

(** [d[k]] when [k in d] *)
Fixpoint dict_get (k : string) (d : dict) : option V :=
  match d with
  | [] => None
  | (k', v) :: d' => if decide (k' = k) then Some v else dict_get k d'
  end.

(** [d[k] = v]: a new key goes to the end, an existing key keeps its place *)
Fixpoint dict_set (k : string) (v : V) (d : dict) : dict :=
  match d with
  | [] => [(k, v)]
  | (k', v') :: d' =>
      if decide (k' = k) then (k, v) :: d' else (k', v') :: dict_set k v d'
  end.

Definition dict_keys (d : dict) : list string := d.*1.
Definition dict_values (d : dict) : list V := d.*2.
End dict.
Arguments dict V : clear implicits.

(** ** The descriptor set (google.protobuf.descriptor_pb2) *)

Record DescriptorProto := {
  dp_name : string;
  dp_field : list string            (* the names of the declared fields *)
}.

Record FileDescriptorProto := {
  proto_name : string;
  proto_package : string;
  proto_dependency : list string;
  proto_message_type : list DescriptorProto;
  proto_options : string
}.

(** A [FileDescriptorSet] is taken for its one field, [file]. *)
Abbreviation FileDescriptorSet := (list FileDescriptorProto) (only parsing).

#[global] Instance DescriptorProto_eq_dec : EqDecision DescriptorProto.
Proof. solve_decision. Defined.
#[global] Instance FileDescriptorProto_eq_dec : EqDecision FileDescriptorProto.
Proof. solve_decision. Defined.

(** ** File descriptor objects (google.protobuf.descriptor) *)

(** A reference to a [FileDescriptor] object: its address in the heap. *)
Definition ref := nat.

(** [fd_serialized_pb] stands for [file_proto.SerializeToString()]: the
    message itself, its wire form being in one-to-one correspondence with it. *)
Record FileDescriptor := {
  fd_name : string;
  fd_package : string;
  fd_options : string;
  fd_serialized_pb : FileDescriptorProto;
  fd_dependencies : list ref
}.

(** A message type descriptor, as found in [message_types_by_name]. *)
Record Descriptor := {
  desc_name : string;
  desc_full_name : string;
  desc_file : string;
  desc_fields : list string
}.

#[global] Instance Descriptor_eq_dec : EqDecision Descriptor.
Proof. solve_decision. Defined.

Definition make_descriptor (fd : FileDescriptor) (dp : DescriptorProto) : Descriptor :=
  {| desc_name := dp_name dp;
     desc_full_name :=
       if decide (fd_package fd = "") then dp_name dp
       else fd_package fd +:+ "." +:+ dp_name dp;
     desc_file := fd_name fd;
     desc_fields := dp_field dp |}.

(** [file_desc.message_types_by_name]: the message types of the serialized
    file, keyed by bare name, in declaration order. *)
Definition message_types_by_name (fd : FileDescriptor) : dict Descriptor :=
  foldl (λ d dp, dict_set (dp_name dp) (make_descriptor fd dp) d) []
        (proto_message_type (fd_serialized_pb fd)).

(** The objects built so far and the [descriptors] dict that refers to them. *)
Record Store := {
  heap : list FileDescriptor;
  descriptors : dict ref
}.

Definition empty_store : Store := {| heap := []; descriptors := [] |}.

(** [FileDescriptor(name=file_proto.name, package=file_proto.package,
    options=file_proto.options, serialized_pb=file_proto.SerializeToString(),
    dependencies=dependencies)] *)
Definition new_FileDescriptor (file_proto : FileDescriptorProto)
    (dependencies : list ref) : FileDescriptor :=
  {| fd_name := proto_name file_proto;
     fd_package := proto_package file_proto;
     fd_options := proto_options file_proto;
     fd_serialized_pb := file_proto;
     fd_dependencies := dependencies |}.

(** [file_desc = FileDescriptor(...); descriptors[file_proto.name] = file_desc]:
    the new object gets the next address, and the dict refers to it. *)
Definition resolve_file (file_proto : FileDescriptorProto) (dependencies : list ref)
    (st : Store) : Store :=
  {| heap := heap st ++ [new_FileDescriptor file_proto dependencies];
     descriptors := dict_set (proto_name file_proto) (length (heap st)) (descriptors st) |}.

(** ** load_descriptors *)

(** Lines 27-35: the files without dependencies. *)
Definition first_pass (file : FileDescriptorSet) (st : Store) : Store :=
  foldl (λ st file_proto,
           match proto_dependency file_proto with
           | [] => resolve_file file_proto [] st
           | _ :: _ => st
           end) st file.

(** Line 42: [[descriptors[dep] for dep in file_proto.dependency if dep in descriptors]] *)
Definition linked_dependencies (st : Store) (file_proto : FileDescriptorProto) : list ref :=
  omap (λ dep, dict_get dep (descriptors st)) (proto_dependency file_proto).

(** Lines 42-52: the body of [for file_proto in remaining]. *)
Definition pass_step (acc : Store * list FileDescriptorProto)
    (file_proto : FileDescriptorProto) : Store * list FileDescriptorProto :=
  let dependencies := linked_dependencies acc.1 file_proto in
  if decide (length dependencies = length (proto_dependency file_proto))
  then (resolve_file file_proto dependencies acc.1, acc.2 ++ [file_proto])
  else acc.

(** Lines 40-52: one pass over [remaining]; the second component is
    [resolved_in_pass]. *)
Definition one_pass (st : Store) (remaining : list FileDescriptorProto)
    : Store * list FileDescriptorProto :=
  foldl pass_step (st, []) remaining.

(** [l.remove(x)]: drops the first element equal to [x]; [None] is Python's
    ValueError when there is none. *)
Fixpoint list_remove {A} `{EqDecision A} (x : A) (l : list A) : option (list A) :=
  match l with
  | [] => None
  | y :: l' => if decide (y = x) then Some l' else cons y <$> list_remove x l'
  end.

(** Lines 54-55 *)
Fixpoint remove_resolved (resolved_in_pass remaining : list FileDescriptorProto)
    : option (list FileDescriptorProto) :=
  match resolved_in_pass with
  | [] => Some remaining
  | resolved :: rest =>
      match list_remove resolved remaining with
      | None => None
      | Some remaining' => remove_resolved rest remaining'
      end
  end.

(** What [load_descriptors] leaves behind: the returned dict with the objects
    it refers to, the records still in [remaining], the number of passes of
    the [while] loop that were run, and the argument of the warning of line 58
    when it was printed. *)
Record Loaded := {
  ld_store : Store;
  ld_remaining : list FileDescriptorProto;
  ld_passes : nat;
  ld_warning : option (list string)
}.

(** Lines 39-59: the [while remaining] loop, run on fuel. *)
Fixpoint resolve_loop (fuel : nat) (st : Store) (remaining : list FileDescriptorProto)
    (passes : nat) : Outcome Loaded :=
  match remaining with
  | [] => Return {| ld_store := st; ld_remaining := []; ld_passes := passes;
                    ld_warning := None |}
  | _ :: _ =>
      match fuel with
      | O => OutOfFuel
      | S fuel' =>
          let '(st', resolved_in_pass) := one_pass st remaining in
          match remove_resolved resolved_in_pass remaining with
          | None => Raise (ValueError "list.remove(x): x not in list")
          | Some remaining' =>
              match resolved_in_pass, remaining' with
              | [], _ :: _ =>
                  Return {| ld_store := st'; ld_remaining := remaining';
                            ld_passes := S passes;
                            ld_warning := Some (proto_name <$> remaining') |}
              | _, _ => resolve_loop fuel' st' remaining' (S passes)
              end
          end
      end
  end.

(** [remaining = [fp for fp in descriptor_set.file if fp.dependency]] *)
Definition with_dependencies (file : FileDescriptorSet) : list FileDescriptorProto :=
  filter (λ fp, proto_dependency fp ≠ []) file.

Definition load_descriptors_fuel (fuel : nat) (descriptor_set : FileDescriptorSet)
    : Outcome Loaded :=
  resolve_loop fuel (first_pass descriptor_set empty_store)
               (with_dependencies descriptor_set) 0%nat.

(** [load_descriptors] from line 23 on, for the parsed descriptor set.  One
    unit of fuel per record is enough ([load_descriptors_fuel_enough]). *)
Definition load_descriptors (descriptor_set : FileDescriptorSet) : Outcome Loaded :=
  load_descriptors_fuel (length descriptor_set) descriptor_set.

(** ** Dynamic messages (google.protobuf.message_factory) *)

Inductive Value :=
| VInt (n : Z)
| VStr (s : string)
| VFloat (x : float)
| VRepeated (items : list Value)
| VMessage (fields : list (string * Value)).

(** An instance of the class [factory.GetPrototype(desc)] returns. *)
Record Message := {
  msg_descriptor : Descriptor;
  msg_fields : dict Value
}.

(** [cls()] for [cls = factory.GetPrototype(desc)] *)
Definition new_message (desc : Descriptor) : Message :=
  {| msg_descriptor := desc; msg_fields := [] |}.

Definition write_field (field : string) (v : Value) (m : Message) : Message :=
  {| msg_descriptor := msg_descriptor m;
     msg_fields := dict_set field v (msg_fields m) |}.

(** [m.field = v]: the runtime refuses a name the type does not declare.  Its
    further checks on the kind of value are left out. *)
Definition setattr (field : string) (v : Value) (m : Message) : Outcome Message :=
  if decide (field ∈ desc_fields (msg_descriptor m))
  then Return (write_field field v m)
  else Raise (AttributeError field).

(** [m.field.extend(vs)] *)
Definition extend (field : string) (vs : list Value) (m : Message) : Outcome Message :=
  if decide (field ∈ desc_fields (msg_descriptor m))
  then
    let old := match dict_get field (msg_fields m) with
               | Some (VRepeated l) => l
               | _ => []
               end in
    Return (write_field field (VRepeated (old ++ vs)) m)
  else Raise (AttributeError field).

(** [m.field.CopyFrom(sub)] *)
Definition CopyFrom (field : string) (sub : Message) (m : Message) : Outcome Message :=
  if decide (field ∈ desc_fields (msg_descriptor m))
  then Return (write_field field (VMessage (msg_fields sub)) m)
  else Raise (AttributeError field).

(** [item = m.field.add()] followed by the writes to [item]: the new element
    is shared with [m], so the writes end up in [m].  The element's type is
    resolved by the runtime from the schema of [field]; the writes to it are
    not checked here. *)
Definition add_item (field : string) (item : dict Value) (m : Message) : Outcome Message :=
  if decide (field ∈ desc_fields (msg_descriptor m))
  then
    let old := match dict_get field (msg_fields m) with
               | Some (VRepeated l) => l
               | _ => []
               end in
    Return (write_field field (VRepeated (old ++ [VMessage item])) m)
  else Raise (AttributeError field).

(** The payload of a message: [m.SerializeToString()].  The wire form is not
    modelled; the payload is the message it encodes. *)
Definition Payload := Message.
Definition SerializeToString (m : Message) : Payload := m.

(** ** The sample values, as functions of the loop index *)

(** [float(n)]: the conversion of an int in an arithmetic operation with a
    float, by counting (exact as long as the magnitude is below 2^53). *)
Fixpoint float_of_nat (n : nat) : float :=
  match n with
  | O => 0%float
  | S n' => (float_of_nat n' + 1)%float
  end.
Definition float_of_int (n : Z) : float :=
  match n with
  | Z0 => 0%float
  | Zpos p => float_of_nat (Pos.to_nat p)
  | Zneg p => (- float_of_nat (Pos.to_nat p))%float
  end.

(** The users of the first loop (lines 91-106) *)
Definition user_address_street (i : Z) : string := pretty (100 + i * 10) +:+ " Main St".
Definition user_address_city (i : Z) : string :=
  if decide (i `mod` 2 = 0) then "Springfield" else "Anytown".
Definition user_address_zip_code (i : Z) : Z := 12345 + i.
Definition user_id (i : Z) : Z := 1000 + i.
Definition user_name (i : Z) : string := "User " +:+ pretty i.
Definition user_email (i : Z) : string := "user" +:+ pretty i +:+ "@example.com".
Definition user_tag (i : Z) : string := "tag" +:+ pretty i.
Definition user_type (i : Z) : Z := if decide (i `mod` 2 = 0) then 1 else 2.

(** The orders of the second loop (lines 109-139) *)
Definition customer_address_street (i : Z) : string := pretty (500 + i * 20) +:+ " Oak Ave".
Definition customer_address_zip_code (i : Z) : Z := 54321 + i.
Definition customer_id (i : Z) : Z := 2000 + i.
Definition customer_name (i : Z) : string := "Customer " +:+ pretty i.
Definition customer_email (i : Z) : string := "customer" +:+ pretty i +:+ "@example.com".
Definition customer_type (i : Z) : Z := 2.
Definition order_id (i : Z) : Z := 9000 + i.
Definition order_total_amount (i : Z) : float := (99.99 + float_of_int i * 25.50)%float.
Definition order_status (i : Z) : Z := 1.
Definition order_created_timestamp (now_ms i : Z) : Z := now_ms - i * 3600000.
Definition item_product_id (i : Z) : string := "PROD-" +:+ pretty (1000 + i).
Definition item_product_name (i : Z) : string := "Product " +:+ pretty i.
Definition item_quantity (i : Z) : Z := i + 1.
Definition item_unit_price (i : Z) : float := (19.99 + float_of_int (i * 5))%float.

(** ** create_sample_messages *)

Record Found := {
  user_desc : option Descriptor;
  order_desc : option Descriptor;
  address_desc : option Descriptor
}.

Definition nothing_found : Found :=
  {| user_desc := None; order_desc := None; address_desc := None |}.

(** Lines 74-79: the body of the inner loop. *)
Definition scan_message (found : Found) (message_desc : Descriptor) : Found :=
  if decide (desc_name message_desc = "User") then
    {| user_desc := Some message_desc;
       order_desc := order_desc found; address_desc := address_desc found |}
  else if decide (desc_name message_desc = "Order") then
    {| user_desc := user_desc found;
       order_desc := Some message_desc; address_desc := address_desc found |}
  else if decide (desc_name message_desc = "Address") then
    {| user_desc := user_desc found;
       order_desc := order_desc found; address_desc := Some message_desc |}
  else found.

(** [descriptors.values()]: the objects the dict refers to, in its order. *)
Definition file_descriptors (st : Store) : list FileDescriptor :=
  omap (λ r, heap st !! r) (dict_values (descriptors st)).

(** Lines 72-79 *)
Definition find_message_types (st : Store) : Found :=
  foldl (λ found file_desc,
           foldl scan_message found (dict_values (message_types_by_name file_desc)))
        nothing_found (file_descriptors st).

(** Lines 92-106: one iteration of the first loop. *)
Definition sample_user (address_class user_class : Descriptor) (i : Z)
    : Outcome (string * Payload * string) :=
  address ← setattr "street" (VStr (user_address_street i)) (new_message address_class);
  address ← setattr "city" (VStr (user_address_city i)) address;
  address ← setattr "country" (VStr "USA") address;
  address ← setattr "zip_code" (VInt (user_address_zip_code i)) address;
  user ← setattr "id" (VInt (user_id i)) (new_message user_class);
  user ← setattr "name" (VStr (user_name i)) user;
  user ← setattr "email" (VStr (user_email i)) user;
  user ← extend "tags" [VStr (user_tag i); VStr "test"] user;
  user ← setattr "type" (VInt (user_type i)) user;
  user ← CopyFrom "address" address user;
  mret ("user-events", SerializeToString user, "User " +:+ pretty i).

(** Lines 110-139: one iteration of the second loop; [now_ms] is the value of
    [int(time.time() * 1000)] in this iteration. *)
Definition sample_order (address_class user_class order_class : Descriptor)
    (now_ms : Z) (i : Z) : Outcome (string * Payload * string) :=
  address ← setattr "street" (VStr (customer_address_street i)) (new_message address_class);
  address ← setattr "city" (VStr "Commerce City") address;
  address ← setattr "country" (VStr "USA") address;
  address ← setattr "zip_code" (VInt (customer_address_zip_code i)) address;
  user ← setattr "id" (VInt (customer_id i)) (new_message user_class);
  user ← setattr "name" (VStr (customer_name i)) user;
  user ← setattr "email" (VStr (customer_email i)) user;
  user ← setattr "type" (VInt (customer_type i)) user;
  user ← CopyFrom "address" address user;
  order ← setattr "id" (VInt (order_id i)) (new_message order_class);
  order ← CopyFrom "user" user order;
  order ← setattr "total_amount" (VFloat (order_total_amount i)) order;
  order ← setattr "status" (VInt (order_status i)) order;
  order ← setattr "created_timestamp" (VInt (order_created_timestamp now_ms i)) order;
  order ← add_item "items"
            [("product_id", VStr (item_product_id i));
             ("product_name", VStr (item_product_name i));
             ("quantity", VInt (item_quantity i));
             ("unit_price", VFloat (item_unit_price i))] order;
  mret ("order-events", SerializeToString order, "Order " +:+ pretty i).

(** [range(n)] *)
Definition range (n : nat) : list Z := Z.of_nat <$> seq 0 n.

(** [create_sample_messages(descriptors)]; [clock k] is the value of
    [int(time.time() * 1000)] at the [k]-th order. *)
Definition create_sample_messages (clock : nat → Z) (st : Store)
    : Outcome (list (string * Payload * string)) :=
  let found := find_message_types st in
  match user_desc found, order_desc found, address_desc found with
  | Some user_class, Some order_class, Some address_class =>
      users ← mapM (sample_user address_class user_class) (range 5);
      orders ← mapM (λ i, sample_order address_class user_class order_class
                            (clock (Z.to_nat i)) i) (range 3);
      mret (users ++ orders)
  | _, _, _ => Raise (ValueError "Required message types not found in descriptors")
  end.

(** ** The world around main *)

(** What is written to standard output. *)
Inductive Output :=
| Text (line : string)
| UnresolvedWarning (names : list string)    (* line 58 *)
| ErrorLine (e : Exn)                        (* line 213 *)
| Traceback (e : Exn).                       (* line 215 *)

Inductive Event :=
| Print (out : Output)
| Sleep (seconds : Z)
| Connect (bootstrap_servers : string)       (* KafkaProducer(...) *)
| Send (topic key : string) (value : Payload) (* producer.send and future.get *)
| Flush
| Close.

(** What main finds around it: the environment variables, the descriptor set
    files that can be read and parsed, the clock ([time_ms k] is the [k]-th
    reading of [time.time()], in milliseconds) and the broker ([kafka n] is
    the result of the [n]-th call to the producer: a receipt with partition
    and offset, or [None] when the call raises). *)
Record Env := {
  getenv : string → option string;
  read_descriptor_set : string → option FileDescriptorSet;
  time_ms : nat → Z;
  kafka : nat → option (Z * Z)
}.

Record World := {
  trace : list Event;
  clock_reads : nat;
  kafka_calls : nat
}.

Definition initial_world : World :=
  {| trace := []; clock_reads := 0; kafka_calls := 0 |}.

Definition M (A : Type) : Type := World → World * Outcome A.

Definition M_ret {A} (a : A) : M A := λ w, (w, Return a).
Definition M_bind {A B} (f : A → M B) (m : M A) : M B :=
  λ w, match m w with
       | (w', Return a) => f a w'
       | (w', Raise e) => (w', Raise e)
       | (w', OutOfFuel) => (w', OutOfFuel)
       end.

#[global] Instance M_mret : MRet M := @M_ret.
#[global] Instance M_mbind : MBind M := @M_bind.

Definition raise {A} (e : Exn) : M A := λ w, (w, Raise e).

Definition emit (e : Event) : M unit :=
  λ w, ({| trace := trace w ++ [e]; clock_reads := clock_reads w;
           kafka_calls := kafka_calls w |}, Return ()).

Definition print (line : string) : M unit := emit (Print (Text line)).

(** [time.time()], in milliseconds *)
Definition time_time (env : Env) : M Z :=
  λ w, ({| trace := trace w; clock_reads := S (clock_reads w);
           kafka_calls := kafka_calls w |}, Return (time_ms env (clock_reads w))).

(** A call to the producer: it is recorded, and the broker decides. *)
Definition kafka_call (env : Env) (e : Event) : M (Z * Z) :=
  λ w, let w' := {| trace := trace w ++ [e]; clock_reads := clock_reads w;
                    kafka_calls := S (kafka_calls w) |} in
       match kafka env (kafka_calls w) with
       | Some receipt => (w', Return receipt)
       | None => (w', Raise (KafkaError (kafka_calls w)))
       end.

Fixpoint for_each {A} (body : A → M unit) (l : list A) : M unit :=
  match l with
  | [] => mret ()
  | x :: l' => body x;; for_each body l'
  end.

(** [f"key-{int(time.time())}"], for the clock reading [now], and for the
    [k]-th reading of the clock *)
Definition key_of (now : Z) : string := "key-" +:+ pretty (now `div` 1000).
Definition key_at (env : Env) (k : nat) : string := key_of (time_ms env k).

(** Lines 178-181 and 204-207: the key, the send and the report. *)
Definition send_message (env : Env) (message : string * Payload * string) : M unit :=
  let '(topic, message_bytes, description) := message in
  now ← time_time env;
  let key := key_of now in
  receipt ← kafka_call env (Send topic key message_bytes);
  print ("Sent " +:+ description +:+ " to " +:+ topic +:+ " (partition="
         +:+ pretty receipt.1 +:+ ", offset=" +:+ pretty receipt.2 +:+ ")").

(** [load_descriptors(descriptor_file_path)] with its input and output:
    lines 17-21 read and parse the file, line 58 prints the warning. *)
Definition load_descriptors_from (env : Env) (descriptor_file_path : string) : M Store :=
  print ("Loading descriptors from: " +:+ descriptor_file_path);;
  match read_descriptor_set env descriptor_file_path with
  | None => raise (OSError descriptor_file_path)
  | Some descriptor_set =>
      match load_descriptors descriptor_set with
      | Return ld =>
          match ld_warning ld with
          | Some names => emit (Print (UnresolvedWarning names))
          | None => mret ()
          end;;
          mret (ld_store ld)
      | Raise e => raise e
      | OutOfFuel => λ w, (w, OutOfFuel)
      end
  end.

(** [create_sample_messages(descriptors)] with the clock of the world. *)
Definition create_sample_messages_now (env : Env) (st : Store)
    : M (list (string * Payload * string)) :=
  λ w, match create_sample_messages (λ k, time_ms env (clock_reads w + k)%nat) st with
       | Return messages =>
           ({| trace := trace w; clock_reads := (clock_reads w + 3)%nat;
               kafka_calls := kafka_calls w |}, Return messages)
       | Raise e => (w, Raise e)
       | OutOfFuel => (w, OutOfFuel)
       end.

(** [messages[0]] and [messages[-1]] *)
Definition first_message {A} (messages : list A) : M A :=
  match head messages with Some m => mret m | None => raise IndexError end.
Definition last_message {A} (messages : list A) : M A :=
  match last messages with Some m => mret m | None => raise IndexError end.

(** Lines 192-210: one turn of [while True]. *)
Definition background_cycle (env : Env) (kafka_brokers : string)
    (messages : list (string * Payload * string)) : M unit :=
  emit (Sleep 30);;
  kafka_call env (Connect kafka_brokers);;
  user_msg ← first_message messages;
  order_msg ← last_message messages;
  for_each (send_message env) [user_msg; order_msg];;
  kafka_call env Flush;;
  kafka_call env Close;;
  mret ().

(** Lines 191-210: [while True], for [fuel] turns.  There is no [break]:
    the loop ends by an exception or not at all. *)
Fixpoint background_loop (fuel : nat) (env : Env) (kafka_brokers : string)
    (messages : list (string * Payload * string)) : M unit :=
  match fuel with
  | O => λ w, (w, OutOfFuel)
  | S fuel' =>
      background_cycle env kafka_brokers messages;;
      background_loop fuel' env kafka_brokers messages
  end.

(** Lines 176-185: the initial burst. *)
Definition burst (env : Env) (messages : list (string * Payload * string)) : M unit :=
  for_each (λ message, send_message env message;; emit (Sleep 1)) messages;;
  kafka_call env Flush;;
  kafka_call env Close;;
  mret ().

(** Lines 159-210: the body of [try]. *)
Definition main_try (fuel : nat) (env : Env) (kafka_brokers descriptor_file : string)
    : M unit :=
  st ← load_descriptors_from env descriptor_file;
  print ("Loaded " +:+ pretty (length (descriptors st)) +:+ " file descriptors");;
  messages ← create_sample_messages_now env st;
  print ("Created " +:+ pretty (length messages) +:+ " sample messages");;
  kafka_call env (Connect kafka_brokers);;
  print "Producing messages to Kafka...";;
  burst env messages;;
  print "All messages sent successfully!";;
  print "Continuing to produce messages every 30 seconds...";;
  background_loop fuel env kafka_brokers messages.

(** Lines 148-149: [os.getenv] with its default. *)
Definition kafka_brokers (env : Env) : string :=
  default "localhost:9092" (getenv env "KAFKA_BROKERS").
Definition descriptor_file (env : Env) : string :=
  default "/descriptors/test_descriptors.desc" (getenv env "DESCRIPTOR_FILE").

(** Lines 158 and 212-218: [try: body] followed by [return 0], with
    [except Exception as e] reporting and returning 1. *)
Definition try_except (body : M unit) : M Z :=
  λ w, match body w with
       | (w', Return _) => (w', Return 0)
       | (w', Raise e) =>
           (emit (Print (ErrorLine e));; emit (Print (Traceback e));; mret 1) w'
       | (w', OutOfFuel) => (w', OutOfFuel)
       end.

(** [main()], with [fuel] turns of the background loop.  [Return] carries the
    exit status. *)
Definition main (fuel : nat) (env : Env) : M Z :=
  print "Starting Protobuf message producer...";;
  print ("Kafka brokers: " +:+ kafka_brokers env);;
  print ("Descriptor file: " +:+ descriptor_file env);;
  print "Waiting for Kafka to be ready...";;
  emit (Sleep 10);;
  try_except (main_try fuel env (kafka_brokers env) (descriptor_file env)).

(** * The test script [docker/scripts/test_protobuf_message.py] *)








(** ** A descriptor set like the one of the integration test

    [user.proto] declares [Address] and [User]; [order.proto] depends on it
    and declares [OrderItem] and [Order]. *)

Definition user_proto : FileDescriptorProto :=
  {| proto_name := "user.proto"; proto_package := "test";
     proto_dependency := [];
     proto_message_type :=
       [ {| dp_name := "Address";
            dp_field := ["street"; "city"; "country"; "zip_code"] |};
         {| dp_name := "User";
            dp_field := ["id"; "name"; "email"; "tags"; "type"; "address"] |} ];
     proto_options := "" |}.

Definition order_proto : FileDescriptorProto :=
  {| proto_name := "order.proto"; proto_package := "test";
     proto_dependency := ["user.proto"];
     proto_message_type :=
       [ {| dp_name := "OrderItem";
            dp_field := ["product_id"; "product_name"; "quantity"; "unit_price"] |};
         {| dp_name := "Order";
            dp_field := ["id"; "user"; "items"; "total_amount"; "status";
                         "created_timestamp"] |} ];
     proto_options := "" |}.

Definition test_descriptors : FileDescriptorSet := [user_proto; order_proto].

(** ** Notions used to state the properties of the loader *)

(** [k in descriptors] *)
Definition is_key (st : Store) (k : string) : Prop :=
  is_Some (dict_get k (descriptors st)).

(** The test of line 43: every dependency name is a key of [descriptors]. *)
Definition ready (st : Store) (file_proto : FileDescriptorProto) : Prop :=
  Forall (is_key st) (proto_dependency file_proto).

#[global] Instance is_key_dec st k : Decision (is_key st k).
Proof. unfold is_key. apply _. Defined.
#[global] Instance ready_dec st file_proto : Decision (ready st file_proto).
Proof. unfold ready. apply _. Defined.

(** [st'] comes after [st]: no key is lost and the objects stay in place. *)
Definition grows (st st' : Store) : Prop :=
  (∀ k, is_key st k → is_key st' k) ∧ heap st `prefix_of` heap st'.

(** The record was turned into an object and its name is a key. *)
Definition built (st : Store) (file_proto : FileDescriptorProto) : Prop :=
  is_key st (proto_name file_proto) ∧
  ∃ r fd, heap st !! r = Some fd ∧ fd_serialized_pb fd = file_proto.

(** The names that can ever be resolved: the least set of names that holds
    the name of every record of the descriptor set whose dependency names are
    all in the set.  A name that no record bears is not in it, nor is a name
    whose records all lead to such a name or back to themselves. *)
Inductive resolvable_name (file : FileDescriptorSet) : string → Prop :=
| resolvable_name_intro file_proto :
    file_proto ∈ file →
    (∀ dep, dep ∈ proto_dependency file_proto → resolvable_name file dep) →
    resolvable_name file (proto_name file_proto).

Definition resolvable (file : FileDescriptorSet) (file_proto : FileDescriptorProto) : Prop :=
  file_proto ∈ file ∧
  ∀ dep, dep ∈ proto_dependency file_proto → resolvable_name file dep.

(** The object at address [r] is linked: it bears the name of the record it
    was built from, and its dependency references are, in order, earlier
    objects that bear its declared dependency names. *)
Definition linked (st : Store) (r : ref) (fd : FileDescriptor) : Prop :=
  fd_name fd = proto_name (fd_serialized_pb fd) ∧
  Forall2 (λ dep r', (r' < r)%nat ∧ ∃ fd', heap st !! r' = Some fd' ∧ fd_name fd' = dep)
          (proto_dependency (fd_serialized_pb fd)) (fd_dependencies fd).

(** The graph invariant: the dict refers to objects of the heap by their
    names, and every object is linked, comes from a record of the descriptor
    set that can be resolved, and has its own name among the keys. *)
Record store_ok (file : FileDescriptorSet) (st : Store) : Prop := {
  ok_dict : ∀ k r, dict_get k (descriptors st) = Some r →
            ∃ fd, heap st !! r = Some fd ∧ fd_name fd = k;
  ok_heap : ∀ r fd, heap st !! r = Some fd →
            linked st r fd ∧ is_key st (fd_name fd) ∧ resolvable file (fd_serialized_pb fd)
}.

(** ** Notions used to state the properties of the lookup *)

(** The message types the two loops of lines 72-73 go through, in order. *)
Definition all_message_types (st : Store) : list Descriptor :=
  file_descriptors st ≫= λ file_desc, dict_values (message_types_by_name file_desc).

Definition named (name : string) (l : list Descriptor) : list Descriptor :=
  filter (λ message_desc, desc_name message_desc = name) l.

Definition first_match (name : string) (l : list Descriptor) : option Descriptor :=
  head (named name l).
Definition last_match (name : string) (l : list Descriptor) : option Descriptor :=
  last (named name l).

(** Two packages that both declare a [User]. *)
Definition colliding_descriptors : FileDescriptorSet :=
  [ {| proto_name := "a.proto"; proto_package := "a"; proto_dependency := [];
       proto_message_type := [ {| dp_name := "User"; dp_field := ["id"] |} ];
       proto_options := "" |};
    {| proto_name := "b.proto"; proto_package := "b"; proto_dependency := [];
       proto_message_type := [ {| dp_name := "User"; dp_field := ["id"] |} ];
       proto_options := "" |} ].

(** ** Notions used to state the properties of the sample values *)


(** The user of index [i], when the runtime accepts every write. *)
Definition user_payload (user_class : Descriptor) (i : Z) : Payload :=
  {| msg_descriptor := user_class;
     msg_fields :=
       [("id", VInt (user_id i)); ("name", VStr (user_name i));
        ("email", VStr (user_email i));
        ("tags", VRepeated [VStr (user_tag i); VStr "test"]);
        ("type", VInt (user_type i));
        ("address",
         VMessage [("street", VStr (user_address_street i));
                   ("city", VStr (user_address_city i));
                   ("country", VStr "USA");
                   ("zip_code", VInt (user_address_zip_code i))])] |}.

(** The order of index [i], when the runtime accepts every write. *)
Definition order_payload (order_class : Descriptor) (now_ms i : Z) : Payload :=
  {| msg_descriptor := order_class;
     msg_fields :=
       [("id", VInt (order_id i));
        ("user",
         VMessage [("id", VInt (customer_id i)); ("name", VStr (customer_name i));
                   ("email", VStr (customer_email i));
                   ("type", VInt (customer_type i));
                   ("address",
                    VMessage [("street", VStr (customer_address_street i));
                              ("city", VStr "Commerce City");
                              ("country", VStr "USA");
                              ("zip_code", VInt (customer_address_zip_code i))])]);
        ("total_amount", VFloat (order_total_amount i));
        ("status", VInt (order_status i));
        ("created_timestamp", VInt (order_created_timestamp now_ms i));
        ("items",
         VRepeated
           [VMessage [("product_id", VStr (item_product_id i));
                      ("product_name", VStr (item_product_name i));
                      ("quantity", VInt (item_quantity i));
                      ("unit_price", VFloat (item_unit_price i))]])] |}.

(** The corpus of 5 users and 3 orders. *)
Definition corpus (user_class order_class : Descriptor) (clock : nat → Z)
    : list (string * Payload * string) :=
  ((λ i, ("user-events", user_payload user_class i, "User " +:+ pretty i)) <$> range 5)
  ++ ((λ i, ("order-events", order_payload order_class (clock (Z.to_nat i)) i,
             "Order " +:+ pretty i)) <$> range 3).

(** ** Notions used to state the properties of main *)

(** The test of line 81. *)
Definition missing_type (st : Store) : Prop :=
  user_desc (find_message_types st) = None ∨
  order_desc (find_message_types st) = None ∨
  address_desc (find_message_types st) = None.

(** The producer calls and the sleeps of a trace: all but what is printed. *)
Definition is_call (e : Event) : bool :=
  match e with Print _ => false | _ => true end.
Definition calls (tr : list Event) : list Event := filter is_call tr.

(** The topic and payload of every send of a trace. *)
Definition sent (tr : list Event) : list (string * Payload) :=
  omap (λ e, match e with Send topic _ value => Some (topic, value) | _ => None end) tr.

(** The calls of one turn of the background loop that starts at the [c]-th
    reading of the clock. *)
Definition cycle (env : Env) (kafka_brokers : string)
    (user_msg order_msg : string * Payload * string) (c : nat) : list Event :=
  [Sleep 30; Connect kafka_brokers;
   Send user_msg.1.1 (key_at env c) user_msg.1.2;
   Send order_msg.1.1 (key_at env (S c)) order_msg.1.2;
   Flush; Close].

Fixpoint cycles (env : Env) (kafka_brokers : string)
    (user_msg order_msg : string * Payload * string) (c n : nat) : list Event :=
  match n with
  | O => []
  | S n' => cycle env kafka_brokers user_msg order_msg c
            ++ cycles env kafka_brokers user_msg order_msg (S (S c)) n'
  end.

(** The calls of the loop of lines 177-182 that starts at the [c]-th reading
    of the clock. *)
Fixpoint burst_sends (env : Env) (messages : list (string * Payload * string))
    (c : nat) : list Event :=
  match messages with
  | [] => []
  | message :: messages' =>
      Send message.1.1 (key_at env c) message.1.2 :: Sleep 1
      :: burst_sends env messages' (S c)
  end.

(** From [w] to [w']: the calls that were added, the number of readings of
    the clock and the number of calls to the producer. *)
Definition advances (w w' : World) (new_calls : list Event) (reads ncalls : nat) : Prop :=
  calls (trace w') = calls (trace w) ++ new_calls ∧
  clock_reads w' = (clock_reads w + reads)%nat ∧
  kafka_calls w' = (kafka_calls w + ncalls)%nat.

(** The broker takes every call. *)
Definition broker_up (env : Env) : Prop := ∀ n, is_Some (kafka env n).

(** The world after a line was printed. *)
Definition printed (w : World) (out : Output) : World :=
  {| trace := trace w ++ [Print out]; clock_reads := clock_reads w;
     kafka_calls := kafka_calls w |}.


(** A world without environment variables, where the descriptor set [file]
    is read, the clock ticks every second, and the broker takes every call
    but the one of number [failing]. *)
Definition world_of (file : FileDescriptorSet) (failing : option nat) : Env :=
  {| getenv := λ _, None;
     read_descriptor_set := λ _, Some file;
     time_ms := λ k, 1700000000000 + Z.of_nat k * 1000;
     kafka := λ n, if decide (failing = Some n) then None else Some (0, Z.of_nat n) |}.

(** The world of the integration test. *)
Definition test_env (failing : option nat) : Env := world_of test_descriptors failing.


(** What the loader makes of [test_descriptors], and the corpus built from
    it on the clock of [test_env]. *)
Definition test_loaded : Loaded :=
  {| ld_store := resolve_file order_proto [0%nat] (resolve_file user_proto [] empty_store);
     ld_remaining := []; ld_passes := 1; ld_warning := None |}.

Definition test_user_class : Descriptor :=
  {| desc_name := "User"; desc_full_name := "test.User"; desc_file := "user.proto";
     desc_fields := ["id"; "name"; "email"; "tags"; "type"; "address"] |}.

Definition test_order_class : Descriptor :=
  {| desc_name := "Order"; desc_full_name := "test.Order"; desc_file := "order.proto";
     desc_fields := ["id"; "user"; "items"; "total_amount"; "status";
                     "created_timestamp"] |}.

Definition test_messages : list (string * Payload * string) :=
  corpus test_user_class test_order_class (time_ms (test_env None)).

(** No more keys than objects. *)
Definition compact (st : Store) : Prop :=
  (length (descriptors st) ≤ length (heap st))%nat.

(** ** Notions used to state how main ends *)

(** The broker takes the calls of numbers [a] to [b - 1]. *)
Definition calls_ok (env : Env) (a b : nat) : Prop :=
  ∀ n, (a ≤ n < b)%nat → is_Some (kafka env n).

(** From [w] to [w'], [k] calls were made to the producer and taken. *)
Definition made_calls (env : Env) (w w' : World) (k : nat) : Prop :=
  kafka_calls w' = (kafka_calls w + k)%nat ∧
  calls_ok env (kafka_calls w) (kafka_calls w').

(** From [w] to [w'], the last call to the producer was refused and the
    calls before it were taken. *)
Definition stopped_by_broker (env : Env) (w w' : World) : Prop :=
  (kafka_calls w < kafka_calls w')%nat ∧
  calls_ok env (kafka_calls w) (kafka_calls w' - 1) ∧
  kafka env (kafka_calls w' - 1) = None.

(** A computation that returns after [k] calls to the producer, unless the
    broker refuses one of them. *)
Definition steps {A} (env : Env) (k : nat) (m : M A) : Prop :=
  ∀ w, match (m w).2 with
       | Return _ => made_calls env w (m w).1 k
       | Raise _ => stopped_by_broker env w (m w).1
       | OutOfFuel => False
       end.

(** A computation that is still running after [k] calls to the producer,
    unless the broker refuses one of them. *)
Definition loops {A} (env : Env) (k : nat) (m : M A) : Prop :=
  ∀ w, match (m w).2 with
       | Return _ => False
       | Raise _ => stopped_by_broker env w (m w).1
       | OutOfFuel => made_calls env w (m w).1 k
       end.

(** A computation that does not return. *)
Definition never_returns {A} (m : M A) : Prop := ∀ w a, (m w).2 ≠ Return a.

(** The fields that the producer and the test script write. *)
Definition address_fields : list string := ["street"; "city"; "country"; "zip_code"].
Definition user_fields : list string := ["id"; "name"; "email"; "tags"; "type"; "address"].
Definition order_fields : list string :=
  ["id"; "user"; "total_amount"; "status"; "created_timestamp"; "items"].

(** ** Notions used to state the properties of the test script *)




(** * Properties *)

(** ** The dict *)

Section dict_facts.
Context {V : Type}.
Implicit Types (d : dict V) (k : string) (v : V).

Lemma dict_get_set d k k' v :
  dict_get k' (dict_set k v d) = if decide (k = k') then Some v else dict_get k' d.
Proof.
  induction d as [|[k0 v0] d IH]; simpl.
  - repeat case_decide; congruence.
  - destruct (decide (k0 = k)) as [->|Hk0]; simpl.
    + by destruct (decide (k = k')).
    + rewrite IH. destruct (decide (k0 = k')) as [->|]; [|done].
      by destruct (decide (k = k')).
Qed.



(** A new key is appended; an old key keeps its position. *)
Lemma dict_set_fresh d k v :
  dict_get k d = None → dict_set k v d = d ++ [(k, v)].
Proof.
  induction d as [|[k0 v0] d IH]; simpl; [done|].
  case_decide; [done|]. intros. by rewrite IH.
Qed.
End dict_facts.

(** ** Lists: filtered maps and [remove] *)

Lemma length_omap_le {A B} (f : A → option B) (l : list A) :
  (length (omap f l) ≤ length l)%nat.
Proof. induction l as [|x l IH]; csimpl; [lia|]. destruct (f x); simpl; lia. Qed.

Lemma length_omap_full {A B} (f : A → option B) (l : list A) :
  length (omap f l) = length l ↔ Forall (λ x, is_Some (f x)) l.
Proof.
  induction l as [|x l IH]; csimpl.
  - split; [constructor | done].
  - pose proof (length_omap_le f l). rewrite Forall_cons.
    destruct (f x) eqn:Hx; simpl.
    + rewrite <- IH. split; [intros; split; eauto; lia | intros [_ ?]; lia].
    + split; [lia | intros [[? ?] _]; done].
Qed.

Lemma omap_full_Forall2 {A B} (f : A → option B) (l : list A) :
  Forall (λ x, is_Some (f x)) l → Forall2 (λ x y, f x = Some y) l (omap f l).
Proof.
  induction 1 as [|x l [y Hy] _ IH]; csimpl; [constructor|].
  rewrite Hy. by constructor.
Qed.

Section list_remove.
Context {A : Type} `{EqDecision A}.
Implicit Types (x : A) (l : list A).

Lemma list_remove_elem_of x l : x ∈ l → is_Some (list_remove x l).
Proof.
  induction l as [|y l IH]; simpl; [by intros ?%elem_of_nil|].
  intros Hx. case_decide; [eauto|].
  apply elem_of_cons in Hx as [->|Hx]; [done|].
  destruct (IH Hx) as [l' ->]. simpl. eauto.
Qed.

Lemma list_remove_Some x l l' : list_remove x l = Some l' → l ≡ₚ x :: l'.
Proof.
  revert l'. induction l as [|y l IH]; simpl; intros l'; [done|].
  case_decide; subst.
  - by intros [= ->].
  - destruct (list_remove x l) as [l0|]; simpl; [|done].
    intros [= <-]. rewrite (IH l0 eq_refl). apply Permutation_swap.
Qed.

(** Removing an element that a filter drops does not change what it keeps. *)
Lemma list_remove_filter (P : A → Prop) `{∀ y, Decision (P y)} x l l' :
  ¬ P x → list_remove x l = Some l' → filter P l' = filter P l.
Proof.
  intros Hx. revert l'. induction l as [|y l IH]; simpl; intros l'; [done|].
  case_decide; subst.
  - intros [= ->]. by rewrite filter_cons_False.
  - destruct (list_remove x l) as [l0|]; simpl; [|done].
    intros [= <-]. rewrite !filter_cons, (IH l0 eq_refl). done.
Qed.
End list_remove.

(** ** One record is resolved *)

Lemma is_key_resolve_file fp deps st k :
  is_key (resolve_file fp deps st) k ↔ k = proto_name fp ∨ is_key st k.
Proof.
  unfold is_key; simpl. rewrite dict_get_set.
  case_decide; subst; [split; eauto | split; [by right | by intros [?|?]]].
Qed.

Lemma grows_refl st : grows st st.
Proof. by split. Qed.

Lemma grows_trans st1 st2 st3 : grows st1 st2 → grows st2 st3 → grows st1 st3.
Proof. intros [? ?] [? ?]. split; [eauto | by etrans]. Qed.

Lemma grows_resolve_file fp deps st : grows st (resolve_file fp deps st).
Proof.
  split; [|by eexists]. intros k Hk. apply is_key_resolve_file. by right.
Qed.

Lemma grows_key st st' k : grows st st' → is_key st k → is_key st' k.
Proof. intros [H _]. apply H. Qed.

Lemma grows_built st st' fp : grows st st' → built st fp → built st' fp.
Proof.
  intros [Hkeys Hheap] [Hkey (r & fd & Hr & Hpb)]. split; [by apply Hkeys|].
  exists r, fd. split; [by eapply prefix_lookup_Some|done].
Qed.

Lemma built_resolve_file fp deps st : built (resolve_file fp deps st) fp.
Proof.
  split; [apply is_key_resolve_file; by left|].
  eexists (length (heap st)), _. simpl. split; [by apply list_lookup_middle|done].
Qed.

Lemma ready_mono st st' fp : grows st st' → ready st fp → ready st' fp.
Proof.
  unfold ready. intros Hincl H. eapply Forall_impl; [exact H|].
  intros k. by apply grows_key.
Qed.

Lemma ready_no_dependency st fp : proto_dependency fp = [] → ready st fp.
Proof. unfold ready. intros ->. constructor. Qed.

(** The test of line 43 is [ready]. *)
Lemma linked_dependencies_full st fp :
  length (linked_dependencies st fp) = length (proto_dependency fp) ↔ ready st fp.
Proof. apply length_omap_full. Qed.

Lemma pass_step_ready st resolved fp :
  ready st fp →
  pass_step (st, resolved) fp
  = (resolve_file fp (linked_dependencies st fp) st, resolved ++ [fp]).
Proof.
  intros H%linked_dependencies_full. unfold pass_step; simpl.
  by rewrite decide_True.
Qed.

Lemma pass_step_not_ready st resolved fp :
  ¬ ready st fp → pass_step (st, resolved) fp = (st, resolved).
Proof.
  intros H. unfold pass_step; simpl. rewrite decide_False; [done|].
  by rewrite linked_dependencies_full.
Qed.

Lemma resolvable_name_key file st :
  store_ok file st → ∀ k, is_key st k → resolvable_name file k.
Proof.
  intros Hok k [r Hr]. destruct (ok_dict _ _ Hok k r Hr) as (fd & Hfd & <-).
  destruct (ok_heap _ _ Hok r fd Hfd) as ([-> _] & _ & Hin & Hdeps).
  by constructor.
Qed.

Lemma store_ok_empty file : store_ok file empty_store.
Proof. split; simpl; intros; simplify_eq. Qed.

(** Resolving a record whose dependencies are all keys keeps the invariant. *)
Lemma store_ok_resolve_file file st fp :
  store_ok file st → fp ∈ file → ready st fp →
  store_ok file (resolve_file fp (linked_dependencies st fp) st).
Proof.
  intros Hok Hin Hready.
  assert (∀ r fd, heap st !! r = Some fd →
            heap (resolve_file fp (linked_dependencies st fp) st) !! r = Some fd) as Hheap.
  { intros r fd Hr. simpl. by apply lookup_app_l_Some. }
  split.
  - intros k r. simpl. rewrite dict_get_set. case_decide as Hk.
    + intros [= <-]. eexists. split; [apply list_lookup_middle; done|]. done.
    + intros Hr. destruct (ok_dict _ _ Hok k r Hr) as (fd & Hfd & Hname). eauto.
  - intros r fd. simpl. intros Hr.
    apply lookup_app_Some in Hr as [Hr|[Hlen Hr]].
    + destruct (ok_heap _ _ Hok r fd Hr) as ((Hname & Hlinks) & Hkey & Hres).
      split; [split|split]; [done| |by eapply grows_key; [apply grows_resolve_file|]|done].
      eapply Forall2_impl; [exact Hlinks|]. simpl.
      intros dep r' (Hlt & fd' & Hfd' & Hdep). eauto 6.
    + apply list_lookup_singleton_Some in Hr as [Hr <-]. simpl.
      assert (r = length (heap st)) as -> by lia.
      split; [split|split]; [done| |apply is_key_resolve_file; by left|].
      * eapply Forall2_impl; [apply omap_full_Forall2, Hready|]. simpl.
        intros dep r' Hget.
        destruct (ok_dict _ _ Hok dep r' Hget) as (fd' & Hfd' & Hdep).
        split; [by eapply lookup_lt_Some|]. eauto.
      * split; [done|]. intros dep Hdep.
        eapply resolvable_name_key; [done|].
        unfold ready in Hready. rewrite Forall_forall in Hready. auto.
Qed.

(** ** The passes *)

Section loader.
Variable file : FileDescriptorSet.

Lemma first_pass_spec l : ∀ st,
  store_ok file st → Forall (.∈ file) l →
  store_ok file (first_pass l st) ∧ grows st (first_pass l st) ∧
  ∀ fp, fp ∈ l → proto_dependency fp = [] → built (first_pass l st) fp.
Proof.
  unfold first_pass.
  induction l as [|fp l IH]; intros st Hok Hl; simpl.
  - split_and!; [done|apply grows_refl|]. by intros fp ?%elem_of_nil.
  - apply Forall_cons in Hl as [Hfp Hl].
    destruct (proto_dependency fp) as [|dep deps] eqn:Hdeps.
    + assert (store_ok file (resolve_file fp [] st)) as Hok'.
      { replace [] with (linked_dependencies st fp)
          by (unfold linked_dependencies; by rewrite Hdeps).
        apply store_ok_resolve_file; [done..|by apply ready_no_dependency]. }
      destruct (IH _ Hok' Hl) as (Hok'' & Hincl & Hkeys).
      split_and!; [done|..].
      * eapply grows_trans; [apply grows_resolve_file|done].
      * intros fp' [->|Hin]%elem_of_cons Hnil; [|by auto].
        eapply grows_built; [exact Hincl|apply built_resolve_file].
    + destruct (IH _ Hok Hl) as (Hok'' & Hincl & Hkeys).
      split_and!; [done..|].
      intros fp' [->|Hin]%elem_of_cons Hnil; [congruence|by auto].
Qed.

(** One pass: what is resolved is a subsequence of [remaining]; each of its
    records was ready when its turn came and its name is a key afterwards;
    a pass that resolves nothing changes nothing. *)
Lemma foldl_pass_step l : ∀ st resolved,
  store_ok file st → Forall (.∈ file) l →
  ∃ st' new,
    foldl pass_step (st, resolved) l = (st', resolved ++ new) ∧
    store_ok file st' ∧ grows st st' ∧ sublist new l ∧
    Forall (λ fp, ready st' fp ∧ built st' fp) new ∧
    (new = [] → st' = st ∧ Forall (λ fp, ¬ ready st fp) l).
Proof.
  induction l as [|fp l IH]; intros st resolved Hok Hl; simpl.
  - exists st, []. rewrite app_nil_r.
    split_and!; [done|done|apply grows_refl|done|constructor|done].
  - apply Forall_cons in Hl as [Hfp Hl].
    destruct (decide (ready st fp)) as [Hready|Hready].
    + rewrite pass_step_ready by done.
      set (st1 := resolve_file fp (linked_dependencies st fp) st).
      assert (store_ok file st1) as Hok1 by by apply store_ok_resolve_file.
      destruct (IH st1 (resolved ++ [fp]) Hok1 Hl)
        as (st' & new & -> & Hok' & Hincl & Hsub & Hnew & _).
      exists st', (fp :: new). rewrite <- app_assoc. simpl.
      assert (grows st st') as Hincl'.
      { eapply grows_trans; [apply grows_resolve_file|done]. }
      split_and!; [done|done|done|by constructor| |done].
      constructor; [|done]. split; [by eapply ready_mono|].
      eapply grows_built; [exact Hincl|apply built_resolve_file].
    + rewrite pass_step_not_ready by done.
      destruct (IH st resolved Hok Hl)
        as (st' & new & -> & Hok' & Hincl & Hsub & Hnew & Hnone).
      exists st', new.
      split_and!; [done|done|done|by constructor|done|].
      intros Hnil. destruct (Hnone Hnil) as [-> Hall]. by split; [|constructor].
Qed.

(** Lines 54-55 never raise, and take away exactly what the pass resolved. *)
Lemma remove_resolved_spec new : ∀ l,
  new ⊆+ l →
  ∃ l', remove_resolved new l = Some l' ∧ l ≡ₚ new ++ l' ∧
        ∀ (P : FileDescriptorProto → Prop) (HP : ∀ x, Decision (P x)),
          Forall (λ x, ¬ P x) new → filter P l' = filter P l.
Proof.
  induction new as [|x new IH]; intros l Hsub; simpl.
  - exists l. by split_and!.
  - assert (x ∈ l) as Hx by (eapply elem_of_submseteq; [left|done]).
    destruct (list_remove_elem_of x l Hx) as [l1 Hl1]. rewrite Hl1.
    pose proof (list_remove_Some _ _ _ Hl1) as Hperm.
    destruct (IH l1) as (l' & -> & Hperm' & Hfilter).
    { apply (submseteq_app_inv_l _ _ [x]). simpl. by rewrite <- Hperm. }
    exists l'. split_and!; [done| |].
    + by rewrite Hperm, Hperm'.
    + intros P ? [HPx Hnew]%Forall_cons.
      rewrite (Hfilter P _ Hnew). by eapply list_remove_filter.
Qed.

Lemma filter_all {A} (P : A → Prop) `{∀ x, Decision (P x)} (l : list A) :
  Forall P l → filter P l = l.
Proof.
  induction 1 as [|x l Hx _ IH]; [done|]. by rewrite filter_cons_True, IH.
Qed.

(** One turn of the [while] loop. *)
Lemma resolve_loop_turn fuel st remaining passes :
  remaining ≠ [] →
  resolve_loop (S fuel) st remaining passes =
    let '(st', resolved_in_pass) := one_pass st remaining in
    match remove_resolved resolved_in_pass remaining with
    | None => Raise (ValueError "list.remove(x): x not in list")
    | Some remaining' =>
        match resolved_in_pass, remaining' with
        | [], _ :: _ =>
            Return {| ld_store := st'; ld_remaining := remaining';
                      ld_passes := S passes;
                      ld_warning := Some (proto_name <$> remaining') |}
        | _, _ => resolve_loop fuel st' remaining' (S passes)
        end
    end.
Proof. by destruct remaining. Qed.

(** The [while] loop: on enough fuel it returns, whatever is left is what is
    not ready in the final dict, and it makes at most one pass per record. *)
Lemma resolve_loop_spec n : ∀ st remaining passes,
  (length remaining ≤ n)%nat → store_ok file st → Forall (.∈ file) remaining →
  ∃ ld,
    (∀ fuel, (length remaining ≤ fuel)%nat →
             resolve_loop fuel st remaining passes = Return ld) ∧
    store_ok file (ld_store ld) ∧ grows st (ld_store ld) ∧
    ld_remaining ld = filter (λ fp, ¬ ready (ld_store ld) fp) remaining ∧
    (∀ fp, fp ∈ remaining →
           fp ∈ ld_remaining ld ∨ built (ld_store ld) fp) ∧
    (passes ≤ ld_passes ld ≤ passes + length remaining)%nat ∧
    ld_warning ld = match ld_remaining ld with
                    | [] => None
                    | _ :: _ => Some (proto_name <$> ld_remaining ld)
                    end.
Proof.
  induction n as [|n IH]; intros st remaining passes Hlen Hok Hfile.
  { destruct remaining; simpl in Hlen; [|lia].
    eexists. split; [intros [|fuel] _; reflexivity|]. simpl.
    split_and!; [done|apply grows_refl|done|by intros ? ?%elem_of_nil|lia|lia|done]. }
  destruct remaining as [|fp0 rest].
  { eexists. split; [intros [|fuel] _; reflexivity|]. simpl.
    split_and!; [done|apply grows_refl|done|by intros ? ?%elem_of_nil|lia|lia|done]. }
  set (remaining := fp0 :: rest) in *.
  destruct (foldl_pass_step remaining st [] Hok Hfile)
    as (st' & new & Hpass & Hok' & Hincl & Hsub & Hnew & Hnone).
  rewrite app_nil_l in Hpass.
  destruct (remove_resolved_spec new remaining (sublist_submseteq _ _ Hsub))
    as (remaining' & Hremove & Hperm & Hfilter).
  destruct new as [|x new].
  - (* nothing was resolved: the loop breaks *)
    destruct (Hnone eq_refl) as [-> Hall]. simpl in Hremove.
    injection Hremove as <-.
    exists {| ld_store := st; ld_remaining := remaining; ld_passes := S passes;
              ld_warning := Some (proto_name <$> remaining) |}.
    split.
    { intros [|fuel] Hfuel; [simpl in Hfuel; lia|].
      rewrite resolve_loop_turn by done.
      unfold one_pass. by rewrite Hpass. }
    simpl. split_and!; [done|apply grows_refl| |by left|lia|simpl; lia|done].
    symmetry. by apply filter_all.
  - (* something was resolved: the loop goes on with what is left *)
    assert (length remaining = S (length new + length remaining'))%nat as Hlen'.
    { by rewrite Hperm, length_app. }
    assert (Forall (.∈ file) remaining') as Hfile'.
    { rewrite Forall_forall in Hfile |- *. intros fp Hfp. apply Hfile.
      rewrite Hperm. apply elem_of_app. by right. }
    destruct (IH st' remaining' (S passes)) as
      (ld & Hrun & Hokf & Hinclf & Hrem & Hcov & Hpasses & Hwarn);
      [lia|done|done|].
    exists ld. split.
    { intros [|fuel] Hfuel; [simpl in Hfuel; lia|].
      rewrite resolve_loop_turn by done.
      unfold one_pass. rewrite Hpass, Hremove.
      destruct remaining'; apply Hrun; simpl in *; lia. }
    split_and!; [done|by eapply grows_trans| | |lia|lia|done].
    + rewrite Hrem. apply Hfilter.
      eapply Forall_impl; [exact Hnew|]. simpl. intros fp [Hready _] Hnot.
      apply Hnot. by eapply ready_mono.
    + intros fp Hfp. rewrite Hperm in Hfp.
      apply elem_of_app in Hfp as [Hfp|Hfp]; [|by auto].
      right. rewrite Forall_forall in Hnew. eapply grows_built; [exact Hinclf|]. by apply Hnew.
Qed.
End loader.

(** ** load_descriptors as a whole *)

Lemma with_dependencies_length file :
  (length (with_dependencies file) ≤ length file)%nat.
Proof. apply length_filter. Qed.

Lemma with_dependencies_elem_of file fp :
  fp ∈ with_dependencies file ↔ proto_dependency fp ≠ [] ∧ fp ∈ file.
Proof. unfold with_dependencies. by rewrite list_elem_of_filter. Qed.


(** The loader returns on one unit of fuel per record with dependencies; its
    dict holds the resolvable names and no other; its objects form a linked
    graph; what it leaves in [remaining] are the records of the set that are
    not ready in the final dict, in the order of the set. *)
Lemma load_descriptors_spec file :
  ∃ ld,
    (∀ fuel, (length (with_dependencies file) ≤ fuel)%nat →
             load_descriptors_fuel fuel file = Return ld) ∧
    store_ok file (ld_store ld) ∧
    (∀ k, is_key (ld_store ld) k ↔ resolvable_name file k) ∧
    ld_remaining ld = filter (λ fp, ¬ ready (ld_store ld) fp) file ∧
    (∀ fp, fp ∈ file → ready (ld_store ld) fp → built (ld_store ld) fp) ∧
    (ld_passes ld ≤ length (with_dependencies file))%nat ∧
    ld_warning ld = match ld_remaining ld with
                    | [] => None
                    | _ :: _ => Some (proto_name <$> ld_remaining ld)
                    end.
Proof.
  assert (Forall (.∈ file) file) as Hfile by by apply Forall_forall.
  destruct (first_pass_spec file file empty_store (store_ok_empty file) Hfile)
    as (Hok0 & _ & Hseed).
  assert (Forall (.∈ file) (with_dependencies file)) as Hrem.
  { apply Forall_forall. by intros fp [_ ?]%with_dependencies_elem_of. }
  destruct (resolve_loop_spec file _ (first_pass file empty_store)
              (with_dependencies file) 0%nat (le_n _) Hok0 Hrem)
    as (ld & Hrun & Hok & Hincl & Hleft & Hcov & Hpasses & Hwarn).
  assert (∀ fp, ¬ ready (ld_store ld) fp → proto_dependency fp ≠ []) as Hdeps.
  { intros fp Hnot Hnil. by apply Hnot, ready_no_dependency. }
  assert (∀ fp, fp ∈ file → ready (ld_store ld) fp → built (ld_store ld) fp)
    as Hbuilt.
  { intros fp Hin Hready.
    destruct (decide (proto_dependency fp = [])) as [Hnil|Hcons].
    - eapply grows_built; [exact Hincl|]. by apply Hseed.
    - destruct (Hcov fp) as [Hfp|Hfp]; [by apply with_dependencies_elem_of| |done].
      rewrite Hleft in Hfp. by apply list_elem_of_filter in Hfp as [? _]. }
  exists ld. split_and!; [done|done| | |done|lia|done].
  - intros k. split; [by apply resolvable_name_key|].
    induction 1 as [fp Hin _ IH].
    apply Hbuilt; [done|]. by apply Forall_forall.
  - rewrite Hleft. unfold with_dependencies. by apply list_filter_filter_l.
Qed.

Lemma load_descriptors_returns file :
  ∃ ld, load_descriptors file = Return ld ∧
        ∀ fuel, (length file ≤ fuel)%nat → load_descriptors_fuel fuel file = Return ld.
Proof.
  destruct (load_descriptors_spec file) as (ld & Hrun & _).
  pose proof (with_dependencies_length file).
  exists ld. split; [apply Hrun; lia|]. intros fuel ?. apply Hrun. lia.
Qed.

(** C2. Whatever the descriptor set, [load_descriptors] returns, and every
    record of the returned mapping is an object of that name all of whose
    declared dependency names are keys of the mapping too; its dependency
    references are objects of the graph that bear these names, in order. *)
Theorem load_descriptors_graph_invariant (file : FileDescriptorSet) :
  ∃ ld, load_descriptors file = Return ld ∧
    ∀ k r, dict_get k (descriptors (ld_store ld)) = Some r →
      ∃ fd, heap (ld_store ld) !! r = Some fd ∧ fd_name fd = k ∧
            (∀ dep, dep ∈ proto_dependency (fd_serialized_pb fd) →
                    is_key (ld_store ld) dep) ∧
            Forall2 (λ dep r', ∃ fd', heap (ld_store ld) !! r' = Some fd' ∧
                                      fd_name fd' = dep ∧ is_key (ld_store ld) dep)
                    (proto_dependency (fd_serialized_pb fd)) (fd_dependencies fd).
Proof.
  destruct (load_descriptors_spec file) as (ld & Hrun & Hok & _).
  pose proof (with_dependencies_length file).
  exists ld. split; [apply Hrun; lia|].
  intros k r Hr. destruct (ok_dict _ _ Hok k r Hr) as (fd & Hfd & Hname).
  destruct (ok_heap _ _ Hok r fd Hfd) as ((_ & Hlinks) & _ & _).
  assert (Forall2 (λ dep r', ∃ fd', heap (ld_store ld) !! r' = Some fd' ∧
                                    fd_name fd' = dep ∧ is_key (ld_store ld) dep)
            (proto_dependency (fd_serialized_pb fd)) (fd_dependencies fd)) as Hdeps.
  { eapply Forall2_impl; [exact Hlinks|]. simpl.
    intros dep r' (_ & fd' & Hfd' & Hdep). exists fd'. split_and!; [done..|].
    destruct (ok_heap _ _ Hok r' fd' Hfd') as (_ & Hkey & _). by rewrite <- Hdep. }
  exists fd. split_and!; [done..| |done].
  intros dep [i Hi]%list_elem_of_lookup.
  by destruct (Forall2_lookup_l _ _ _ _ _ Hdeps Hi) as (r' & _ & fd' & _ & _ & ?).
Qed.


(** A record that names a file absent from the set and two records that
    depend on each other end up in the same report. *)
Example load_descriptors_report :
  let orphan := {| proto_name := "orphan.proto"; proto_package := "test";
                   proto_dependency := ["missing.proto"];
                   proto_message_type := []; proto_options := "" |} in
  let ping := {| proto_name := "ping.proto"; proto_package := "test";
                 proto_dependency := ["pong.proto"];
                 proto_message_type := []; proto_options := "" |} in
  let pong := {| proto_name := "pong.proto"; proto_package := "test";
                 proto_dependency := ["ping.proto"];
                 proto_message_type := []; proto_options := "" |} in
  ∃ ld, load_descriptors [orphan; order_proto; ping; user_proto; pong] = Return ld ∧
        dict_keys (descriptors (ld_store ld)) = ["user.proto"; "order.proto"] ∧
        ld_remaining ld = [orphan; ping; pong] ∧
        ld_warning ld = Some ["orphan.proto"; "ping.proto"; "pong.proto"].
Proof. eexists. split; [vm_compute; reflexivity|]. by vm_compute. Qed.

(** C4. Whatever the descriptor set of N records, the loop of
    [load_descriptors] terminates: on any fuel of at least N it returns the
    same result, after at most N passes (at most one pass per record with
    dependencies). *)
Theorem load_descriptors_terminates (file : FileDescriptorSet) :
  ∃ ld,
    (∀ fuel, (length file ≤ fuel)%nat → load_descriptors_fuel fuel file = Return ld) ∧
    load_descriptors file = Return ld ∧
    (ld_passes ld ≤ length (with_dependencies file))%nat ∧
    (ld_passes ld ≤ length file)%nat.
Proof.
  destruct (load_descriptors_spec file) as (ld & Hrun & _ & _ & _ & _ & Hpasses & _).
  pose proof (with_dependencies_length file).
  exists ld. split_and!; [|apply Hrun; lia|done|lia].
  intros fuel ?. apply Hrun. lia.
Qed.

(** ** A file and its dependency *)

Lemma first_pass_cons fp file st :
  first_pass (fp :: file) st =
    first_pass file (match proto_dependency fp with
                     | [] => resolve_file fp [] st
                     | _ :: _ => st
                     end).
Proof. done. Qed.




(** ** The lookup of the message types *)

Lemma find_message_types_flat st :
  find_message_types st = foldl scan_message nothing_found (all_message_types st).
Proof.
  unfold find_message_types, all_message_types.
  generalize nothing_found.
  induction (file_descriptors st) as [|fd fds IH]; intros found; csimpl; [done|].
  by rewrite foldl_app, IH.
Qed.

Lemma scan_message_fields found message_desc :
  user_desc (scan_message found message_desc)
    = (if decide (desc_name message_desc = "User") then Some message_desc
       else user_desc found) ∧
  order_desc (scan_message found message_desc)
    = (if decide (desc_name message_desc = "Order") then Some message_desc
       else order_desc found) ∧
  address_desc (scan_message found message_desc)
    = (if decide (desc_name message_desc = "Address") then Some message_desc
       else address_desc found).
Proof.
  unfold scan_message.
  repeat (case_decide; simpl); split_and!; congruence.
Qed.

Lemma last_match_snoc name l message_desc :
  last_match name (l ++ [message_desc])
    = if decide (desc_name message_desc = name) then Some message_desc
      else last_match name l.
Proof.
  unfold last_match, named. rewrite filter_app, filter_cons, filter_nil.
  case_decide; [apply last_snoc | by rewrite app_nil_r].
Qed.

(** Each of the three variables ends up with the last message type of its
    name that the loops went through. *)
Lemma foldl_scan_message l found :
  user_desc (foldl scan_message found l)
    = from_option Some (user_desc found) (last_match "User" l) ∧
  order_desc (foldl scan_message found l)
    = from_option Some (order_desc found) (last_match "Order" l) ∧
  address_desc (foldl scan_message found l)
    = from_option Some (address_desc found) (last_match "Address" l).
Proof.
  induction l as [|message_desc l IH] using rev_ind; [done|].
  rewrite foldl_snoc, !last_match_snoc.
  destruct IH as (IHu & IHo & IHa).
  destruct (scan_message_fields (foldl scan_message found l) message_desc)
    as (-> & -> & ->).
  rewrite IHu, IHo, IHa. split_and!; by case_decide.
Qed.

(** C1, as the code has it. The lookup goes through the message types of all
    the files of the dict and compares bare names; of several message types
    of the same bare name, the one met last is the one that is bound. *)
Theorem find_message_types_last_match (st : Store) :
  user_desc (find_message_types st) = last_match "User" (all_message_types st) ∧
  order_desc (find_message_types st) = last_match "Order" (all_message_types st) ∧
  address_desc (find_message_types st) = last_match "Address" (all_message_types st).
Proof.
  rewrite find_message_types_flat.
  destruct (foldl_scan_message (all_message_types st) nothing_found)
    as (-> & -> & ->). simpl.
  split_and!; by destruct (last_match _ _).
Qed.

(** C1, as stated, fails: with [User] declared in packages [a] and [b], the
    first match is [a.User], and the lookup binds [b.User]. *)
Lemma find_message_types_not_first_match :
  ∃ ld, load_descriptors colliding_descriptors = Return ld ∧
    desc_full_name <$> first_match "User" (all_message_types (ld_store ld))
      = Some "a.User" ∧
    desc_full_name <$> user_desc (find_message_types (ld_store ld))
      = Some "b.User" ∧
    user_desc (find_message_types (ld_store ld))
      ≠ first_match "User" (all_message_types (ld_store ld)).
Proof.
  eexists. split; [vm_compute; reflexivity|].
  split; [by vm_compute|]. split; [by vm_compute|].
  vm_compute. intros [=].
Qed.

(** ** The sample values *)







(** ** The sample messages *)

Ltac accept_writes H :=
  repeat match type of H with
         | context [decide (?field ∈ ?fields)] =>
             destruct (decide (field ∈ fields)); simpl in H; [|discriminate H]
         end.

(** Whatever the two classes, an iteration of the first loop that does not
    raise appends the user of its index. *)
Lemma sample_user_Return address_class user_class i r :
  sample_user address_class user_class i = Return r →
  r = ("user-events", user_payload user_class i, "User " +:+ pretty i).
Proof.
  unfold sample_user, setattr, extend, CopyFrom. simpl. intros H.
  accept_writes H. by injection H as <-.
Qed.

Lemma sample_order_Return address_class user_class order_class now_ms i r :
  sample_order address_class user_class order_class now_ms i = Return r →
  r = ("order-events", order_payload order_class now_ms i, "Order " +:+ pretty i).
Proof.
  unfold sample_order, setattr, CopyFrom, add_item. simpl. intros H.
  accept_writes H. by injection H as <-.
Qed.



Lemma mapM_Return {A B} (f : A → Outcome B) (g : A → B) (l : list A) (k : list B) :
  (∀ x r, f x = Return r → r = g x) →
  mapM f l = Return k → k = g <$> l.
Proof.
  intros Hf. revert k. induction l as [|x l IH]; intros k; simpl.
  - by intros [= <-].
  - destruct (f x) as [r| |] eqn:Hx; simpl; [|done..].
    destruct (mapM f l) as [k'| |]; simpl; [|done..].
    intros [= <-]. by rewrite (Hf x r Hx), (IH k' eq_refl).
Qed.


Ltac destruct_loop n result H :=
  match goal with
  | |- context [mapM ?body (range n)] =>
      destruct (mapM body (range n)) as [result| |] eqn:H;
        cbn [mbind mret outcome_mbind outcome_bind outcome_ret]
  end.

Lemma create_sample_messages_Return clock st messages :
  create_sample_messages clock st = Return messages →
  ∃ user_class order_class,
    user_desc (find_message_types st) = Some user_class ∧
    order_desc (find_message_types st) = Some order_class ∧
    is_Some (address_desc (find_message_types st)) ∧
    messages = corpus user_class order_class clock.
Proof.
  unfold create_sample_messages, corpus.
  destruct (user_desc _) as [user_class|]; [|done].
  destruct (order_desc _) as [order_class|]; [|done].
  destruct (address_desc _) as [address_class|]; [|done].
  destruct_loop 5%nat users Husers; [|done..].
  destruct_loop 3%nat orders Horders; [|done..].
  intros [= <-]. exists user_class, order_class. split_and!; [done..|].
  f_equal.
  - eapply mapM_Return; [|exact Husers]. apply sample_user_Return.
  - refine (mapM_Return _
              (λ i, ("order-events",
                     order_payload order_class (clock (Z.to_nat i)) i,
                     "Order " +:+ pretty i)) _ _ _ Horders).
    intros i r. exact (sample_order_Return _ _ _ _ _ _).
Qed.

Lemma create_sample_messages_missing clock st :
  missing_type st →
  create_sample_messages clock st
  = Raise (ValueError "Required message types not found in descriptors").
Proof.
  unfold missing_type, create_sample_messages.
  intros [-> | [-> | ->]]; [done| |]; repeat case_match; done.
Qed.




(** ** Running in the world *)

Lemma M_bind_unfold {A B} (m : M A) (f : A → M B) (w : World) :
  (m ≫= f) w = match m w with
               | (w', Return a) => f a w'
               | (w', Raise e) => (w', Raise e)
               | (w', OutOfFuel) => (w', OutOfFuel)
               end.
Proof. done. Qed.

Lemma M_bind_Return {A B} (m : M A) (f : A → M B) w w' a :
  m w = (w', Return a) → (m ≫= f) w = f a w'.
Proof. intros H. by rewrite M_bind_unfold, H. Qed.

Lemma M_bind_Raise {A B} (m : M A) (f : A → M B) w w' e :
  m w = (w', Raise e) → (m ≫= f) w = (w', Raise e).
Proof. intros H. by rewrite M_bind_unfold, H. Qed.

Lemma calls_snoc tr e :
  calls (tr ++ [e]) = calls tr ++ (if is_call e then [e] else []).
Proof.
  unfold calls. rewrite filter_app, filter_cons, filter_nil.
  by destruct (is_call e).
Qed.


Lemma sent_app tr1 tr2 : sent (tr1 ++ tr2) = sent tr1 ++ sent tr2.
Proof. apply omap_app. Qed.

Lemma advances_refl w : advances w w [] 0 0.
Proof. unfold advances. by rewrite app_nil_r, !Nat.add_0_r. Qed.

Lemma advances_trans w1 w2 w3 cs1 cs2 r1 r2 k1 k2 :
  advances w1 w2 cs1 r1 k1 → advances w2 w3 cs2 r2 k2 →
  advances w1 w3 (cs1 ++ cs2) (r1 + r2) (k1 + k2).
Proof.
  intros (Hc1 & Hr1 & Hk1) (Hc2 & Hr2 & Hk2). unfold advances.
  rewrite Hc2, Hc1, Hr2, Hr1, Hk2, Hk1, app_assoc. split_and!; [done|lia..].
Qed.


Lemma emit_spec e w :
  ∃ w', emit e w = (w', Return ()) ∧
        advances w w' (if is_call e then [e] else []) 0 0.
Proof.
  eexists. split; [reflexivity|]. unfold advances; simpl.
  by rewrite calls_snoc, !Nat.add_0_r.
Qed.

Lemma kafka_call_spec env e w :
  is_call e = true → is_Some (kafka env (kafka_calls w)) →
  ∃ w' receipt, kafka_call env e w = (w', Return receipt) ∧
                kafka env (kafka_calls w) = Some receipt ∧
                advances w w' [e] 0 1.
Proof.
  intros He [receipt Hr]. unfold kafka_call. rewrite Hr.
  eexists _, receipt. split; [reflexivity|]. split; [done|].
  unfold advances; simpl. rewrite calls_snoc, He, Nat.add_0_r, Nat.add_1_r. done.
Qed.

Lemma send_message_spec env message w :
  is_Some (kafka env (kafka_calls w)) →
  ∃ w', send_message env message w = (w', Return ()) ∧
        advances w w' [Send message.1.1 (key_at env (clock_reads w)) message.1.2] 1 1.
Proof.
  intros [receipt Hr]. destruct message as [[topic message_bytes] description].
  unfold send_message, time_time, kafka_call, print, emit.
  rewrite !M_bind_unfold. simpl. rewrite Hr.
  eexists. split; [reflexivity|]. unfold advances; simpl.
  rewrite !calls_snoc. simpl. rewrite app_nil_r, !Nat.add_1_r. done.
Qed.

(** ** The burst and the background loop when the broker is up *)

Lemma for_each_send_spec env messages : ∀ w,
  broker_up env →
  ∃ w', for_each (λ message, send_message env message;; emit (Sleep 1)) messages w
        = (w', Return ()) ∧
        advances w w' (burst_sends env messages (clock_reads w))
                 (length messages) (length messages).
Proof.
  induction messages as [|message messages IH]; intros w Hup.
  - exists w. split; [done|apply advances_refl].
  - destruct (send_message_spec env message w (Hup _)) as (w1 & Hsend & Hadv1).
    destruct (emit_spec (Sleep 1) w1) as (w2 & Hsleep & Hadv2).
    destruct (IH w2 Hup) as (w3 & Hrest & Hadv3).
    exists w3. split.
    + simpl. rewrite (M_bind_Return _ _ w w2 ()); [done|].
      by rewrite (M_bind_Return _ _ w w1 ()).
    + pose proof (advances_trans _ _ _ _ _ _ _ _ _ Hadv1 Hadv2) as Hadv12.
      pose proof (advances_trans _ _ _ _ _ _ _ _ _ Hadv12 Hadv3) as Hadv.
      assert (clock_reads w2 = S (clock_reads w)) as Hreads.
      { destruct Hadv12 as (_ & -> & _). lia. }
      rewrite Hreads in Hadv. exact Hadv.
Qed.

Lemma burst_spec env messages w :
  broker_up env →
  ∃ w', burst env messages w = (w', Return ()) ∧
        advances w w' (burst_sends env messages (clock_reads w) ++ [Flush; Close])
                 (length messages) (length messages + 2).
Proof.
  intros Hup.
  destruct (for_each_send_spec env messages w Hup) as (w1 & Hsends & Hadv1).
  destruct (kafka_call_spec env Flush w1 eq_refl (Hup _)) as (w2 & ? & Hflush & _ & Hadv2).
  destruct (kafka_call_spec env Close w2 eq_refl (Hup _)) as (w3 & ? & Hclose & _ & Hadv3).
  exists w3. split.
  - unfold burst. rewrite (M_bind_Return _ _ _ _ _ Hsends).
    rewrite (M_bind_Return _ _ _ _ _ Hflush).
    by rewrite (M_bind_Return _ _ _ _ _ Hclose).
  - pose proof (advances_trans _ _ _ _ _ _ _ _ _ Hadv1
                  (advances_trans _ _ _ _ _ _ _ _ _ Hadv2 Hadv3)) as Hadv.
    simpl in Hadv. by rewrite Nat.add_0_r in Hadv.
Qed.

(** One turn of the loop. *)
Lemma background_cycle_spec env brokers messages user_msg order_msg w :
  head messages = Some user_msg → last messages = Some order_msg →
  broker_up env →
  ∃ w', background_cycle env brokers messages w = (w', Return ()) ∧
        advances w w' (cycle env brokers user_msg order_msg (clock_reads w)) 2 5.
Proof.
  intros Hhead Hlast Hup.
  destruct (emit_spec (Sleep 30) w) as (w1 & Hsleep & Hadv1).
  destruct (kafka_call_spec env (Connect brokers) w1 eq_refl (Hup _))
    as (w2 & ? & Hconnect & _ & Hadv2).
  destruct (send_message_spec env user_msg w2 (Hup _)) as (w3 & Huser & Hadv3).
  destruct (send_message_spec env order_msg w3 (Hup _)) as (w4 & Horder & Hadv4).
  destruct (kafka_call_spec env Flush w4 eq_refl (Hup _)) as (w5 & ? & Hflush & _ & Hadv5).
  destruct (kafka_call_spec env Close w5 eq_refl (Hup _)) as (w6 & ? & Hclose & _ & Hadv6).
  exists w6. split.
  - unfold background_cycle, first_message, last_message.
    rewrite Hhead, Hlast.
    rewrite (M_bind_Return _ _ _ _ _ Hsleep), (M_bind_Return _ _ _ _ _ Hconnect).
    rewrite (M_bind_Return _ _ w2 w2 user_msg) by done.
    rewrite (M_bind_Return _ _ w2 w2 order_msg) by done.
    rewrite (M_bind_Return _ _ w2 w4 ()).
    + rewrite (M_bind_Return _ _ _ _ _ Hflush).
      by rewrite (M_bind_Return _ _ _ _ _ Hclose).
    + simpl. rewrite (M_bind_Return _ _ _ _ _ Huser).
      by rewrite (M_bind_Return _ _ _ _ _ Horder).
  - assert (clock_reads w2 = clock_reads w) as Hr2.
    { destruct Hadv1 as (_ & Hr1 & _), Hadv2 as (_ & -> & _). lia. }
    assert (clock_reads w3 = S (clock_reads w)) as Hr3.
    { destruct Hadv3 as (_ & -> & _). lia. }
    rewrite Hr2 in Hadv3. rewrite Hr3 in Hadv4.
    pose proof (advances_trans _ _ _ _ _ _ _ _ _ Hadv1
                 (advances_trans _ _ _ _ _ _ _ _ _ Hadv2
                   (advances_trans _ _ _ _ _ _ _ _ _ Hadv3
                     (advances_trans _ _ _ _ _ _ _ _ _ Hadv4
                       (advances_trans _ _ _ _ _ _ _ _ _ Hadv5 Hadv6))))) as Hadv.
    exact Hadv.
Qed.

(** The loop does not return: by an exception or not at all. *)
Lemma background_loop_no_return fuel env brokers messages : ∀ w,
  (background_loop fuel env brokers messages w).2 ≠ Return ().
Proof.
  induction fuel as [|fuel IH]; intros w; simpl; [done|].
  rewrite M_bind_unfold.
  destruct (background_cycle env brokers messages w) as [w' [[]| |]]; simpl; [|done..].
  apply IH.
Qed.

(** With the broker up, the loop is still running after any number of turns,
    each of which made the calls of [cycle]. *)
Lemma background_loop_spec env brokers messages user_msg order_msg fuel : ∀ w,
  head messages = Some user_msg → last messages = Some order_msg →
  broker_up env →
  ∃ w', background_loop fuel env brokers messages w = (w', OutOfFuel) ∧
        advances w w' (cycles env brokers user_msg order_msg (clock_reads w) fuel)
                 (2 * fuel) (5 * fuel).
Proof.
  induction fuel as [|fuel IH]; intros w Hhead Hlast Hup.
  - exists w. split; [done|apply advances_refl].
  - destruct (background_cycle_spec env brokers messages user_msg order_msg w)
      as (w1 & Hcycle & Hadv1); [done..|].
    destruct (IH w1) as (w2 & Hloop & Hadv2); [done..|].
    exists w2. split.
    + simpl. by rewrite (M_bind_Return _ _ _ _ _ Hcycle).
    + assert (clock_reads w1 = S (S (clock_reads w))) as Hr1.
      { destruct Hadv1 as (_ & -> & _). lia. }
      rewrite Hr1 in Hadv2.
      pose proof (advances_trans _ _ _ _ _ _ _ _ _ Hadv1 Hadv2) as Hadv.
      replace (2 * S fuel)%nat with (2 + 2 * fuel)%nat by lia.
      replace (5 * S fuel)%nat with (5 + 5 * fuel)%nat by lia.
      exact Hadv.
Qed.

(** ** main *)

Lemma emit_print_bind {B} out (f : () → M B) w :
  (emit (Print out) ≫= f) w = f () (printed w out).
Proof. done. Qed.

Lemma print_bind {B} line (f : () → M B) w :
  (print line ≫= f) w = f () (printed w (Text line)).
Proof. done. Qed.

Lemma advances_printed w w' out cs r k :
  advances (printed w out) w' cs r k → advances w w' cs r k.
Proof.
  unfold advances, printed; simpl. rewrite calls_snoc. simpl.
  by rewrite app_nil_r.
Qed.

Lemma advances_printed_r w w' out cs r k :
  advances w w' cs r k → advances w (printed w' out) cs r k.
Proof.
  unfold advances, printed; simpl. rewrite calls_snoc. simpl.
  by rewrite app_nil_r.
Qed.

Lemma try_except_OutOfFuel body w w' :
  body w = (w', OutOfFuel) → try_except body w = (w', OutOfFuel).
Proof. unfold try_except. by intros ->. Qed.

(** Whatever is raised in the body of [try] is reported, and the exit
    status is 1. *)
Lemma try_except_Raise body w w' e :
  body w = (w', Raise e) →
  try_except body w = (printed (printed w' (ErrorLine e)) (Traceback e), Return 1).
Proof. unfold try_except. by intros ->. Qed.

(** The loader in the world: it reads the file and prints the warning. *)
Lemma load_descriptors_from_spec env path file ld w :
  read_descriptor_set env path = Some file →
  load_descriptors file = Return ld →
  ∃ w', load_descriptors_from env path w = (w', Return (ld_store ld)) ∧
        advances w w' [] 0 0.
Proof.
  intros Hread Hload. unfold load_descriptors_from.
  rewrite print_bind, Hread, Hload.
  destruct (ld_warning ld) as [names|].
  - rewrite emit_print_bind. eexists. split; [reflexivity|].
    do 2 apply advances_printed_r. apply advances_refl.
  - eexists. split; [reflexivity|].
    apply advances_printed_r, advances_refl.
Qed.

(** Up to the corpus: nothing was sent yet. *)
Lemma main_try_create fuel env file ld w :
  read_descriptor_set env (descriptor_file env) = Some file →
  load_descriptors file = Return ld →
  ∃ w1, advances w w1 [] 0 0 ∧
    main_try fuel env (kafka_brokers env) (descriptor_file env) w =
      (messages ← create_sample_messages_now env (ld_store ld);
       print ("Created " +:+ pretty (length messages) +:+ " sample messages");;
       kafka_call env (Connect (kafka_brokers env));;
       print "Producing messages to Kafka...";;
       burst env messages;;
       print "All messages sent successfully!";;
       print "Continuing to produce messages every 30 seconds...";;
       background_loop fuel env (kafka_brokers env) messages) w1.
Proof.
  intros Hread Hload.
  destruct (load_descriptors_from_spec env _ file ld w Hread Hload) as (w0 & Hfrom & Hadv).
  eexists. split; [|unfold main_try; rewrite (M_bind_Return _ _ _ _ _ Hfrom), print_bind;
                    reflexivity].
  by apply advances_printed_r.
Qed.

Lemma main_unfold fuel env w :
  ∃ w0, advances w w0 [Sleep 10] 0 0 ∧
        main fuel env w
        = try_except (main_try fuel env (kafka_brokers env) (descriptor_file env)) w0.
Proof.
  unfold main. rewrite !print_bind.
  destruct (emit_spec (Sleep 10) (printed (printed (printed (printed w
              (Text "Starting Protobuf message producer..."))
              (Text ("Kafka brokers: " +:+ kafka_brokers env)))
              (Text ("Descriptor file: " +:+ descriptor_file env)))
              (Text "Waiting for Kafka to be ready..."))) as (w0 & Hsleep & Hadv).
  exists w0. split; [by do 4 apply advances_printed in Hadv|].
  by rewrite (M_bind_Return _ _ _ _ _ Hsleep).
Qed.

(** When a required type is missing from what was loaded, main reports the
    error and returns 1, without a call to the producer. *)
Lemma main_missing_type fuel env file ld w :
  read_descriptor_set env (descriptor_file env) = Some file →
  load_descriptors file = Return ld →
  missing_type (ld_store ld) →
  ∃ w', main fuel env w = (w', Return 1) ∧ advances w w' [Sleep 10] 0 0.
Proof.
  intros Hread Hload Hmissing.
  destruct (main_unfold fuel env w) as (w0 & Hadv0 & ->).
  destruct (main_try_create fuel env file ld w0 Hread Hload) as (w1 & Hadv1 & Htry).
  eexists. split.
  - apply try_except_Raise. rewrite Htry. apply M_bind_Raise.
    unfold create_sample_messages_now.
    by rewrite create_sample_messages_missing.
  - do 2 apply advances_printed_r.
    pose proof (advances_trans _ _ _ _ _ _ _ _ _ Hadv0 Hadv1) as Hadv.
    by rewrite app_nil_r in Hadv.
Qed.

Lemma create_sample_messages_now_spec env st messages w :
  create_sample_messages (λ k, time_ms env (clock_reads w + k)%nat) st = Return messages →
  ∃ w', create_sample_messages_now env st w = (w', Return messages) ∧
        advances w w' [] 3 0.
Proof.
  intros H. unfold create_sample_messages_now. rewrite H.
  eexists. split; [reflexivity|]. unfold advances; simpl.
  by rewrite app_nil_r, Nat.add_0_r.
Qed.

(** With the descriptor set loaded, the corpus built and the broker up, main
    is still running after any number of turns of the background loop: it
    slept, connected, sent the corpus, flushed and closed, and then made the
    calls of [cycles]. *)
Lemma main_running fuel env file ld messages user_msg order_msg w :
  read_descriptor_set env (descriptor_file env) = Some file →
  load_descriptors file = Return ld →
  create_sample_messages (λ k, time_ms env (clock_reads w + k)%nat) (ld_store ld)
    = Return messages →
  head messages = Some user_msg → last messages = Some order_msg →
  broker_up env →
  ∃ w', main fuel env w = (w', OutOfFuel) ∧
        advances w w'
          ([Sleep 10; Connect (kafka_brokers env)]
           ++ burst_sends env messages (clock_reads w + 3)
           ++ [Flush; Close]
           ++ cycles env (kafka_brokers env) user_msg order_msg
                (clock_reads w + 3 + length messages) fuel)
          (3 + length messages + 2 * fuel) (1 + (length messages + 2) + 5 * fuel).
Proof.
  intros Hread Hload Hcreate Hhead Hlast Hup.
  destruct (main_unfold fuel env w) as (w0 & Hadv0 & ->).
  destruct (main_try_create fuel env file ld w0 Hread Hload) as (w1 & Hadv1 & Htry).
  pose proof (advances_trans _ _ _ _ _ _ _ _ _ Hadv0 Hadv1) as Hadv01.
  assert (clock_reads w1 = clock_reads w) as Hr1.
  { destruct Hadv01 as (_ & -> & _). lia. }
  rewrite <- Hr1 in Hcreate.
  destruct (create_sample_messages_now_spec env _ messages w1 Hcreate)
    as (w2 & Hnow & Hadv2).
  destruct (kafka_call_spec env (Connect (kafka_brokers env))
              (printed w2 (Text ("Created " +:+ pretty (length messages)
                                 +:+ " sample messages")))
              eq_refl (Hup _)) as (w3 & ? & Hconnect & _ & Hadv3).
  apply advances_printed in Hadv3.
  destruct (burst_spec env messages
              (printed w3 (Text "Producing messages to Kafka...")) Hup)
    as (w4 & Hburst & Hadv4).
  apply advances_printed in Hadv4. simpl in Hadv4.
  destruct (background_loop_spec env (kafka_brokers env) messages user_msg order_msg
              fuel
              (printed (printed w4 (Text "All messages sent successfully!"))
                 (Text "Continuing to produce messages every 30 seconds..."))
              Hhead Hlast Hup) as (w5 & Hloop & Hadv5).
  do 2 apply advances_printed in Hadv5. simpl in Hadv5.
  exists w5. split.
  - apply try_except_OutOfFuel. rewrite Htry.
    rewrite (M_bind_Return _ _ _ _ _ Hnow), print_bind.
    rewrite (M_bind_Return _ _ _ _ _ Hconnect), print_bind.
    rewrite (M_bind_Return _ _ _ _ _ Hburst), !print_bind.
    exact Hloop.
  - assert (clock_reads w3 = clock_reads w + 3)%nat as Hr3.
    { destruct Hadv2 as (_ & Hr2 & _), Hadv3 as (_ & -> & _). lia. }
    assert (clock_reads w4 = clock_reads w + 3 + length messages)%nat as Hr4.
    { destruct Hadv4 as (_ & -> & _). lia. }
    rewrite Hr3 in Hadv4. rewrite Hr4 in Hadv5.
    pose proof (advances_trans _ _ _ _ _ _ _ _ _ Hadv01
                 (advances_trans _ _ _ _ _ _ _ _ _ Hadv2
                   (advances_trans _ _ _ _ _ _ _ _ _ Hadv3
                     (advances_trans _ _ _ _ _ _ _ _ _ Hadv4 Hadv5)))) as Hadv.
    simpl in Hadv. rewrite <- app_assoc in Hadv. simpl in Hadv.
    destruct Hadv as (Hc & Hr & Hk). split_and!; [exact Hc|lia|lia].
Qed.

(** ** The burst, whatever the broker does *)

Lemma send_message_sent env message w :
  sent (trace (send_message env message w).1)
    = sent (trace w) ++ [(message.1.1, message.1.2)] ∧
  (send_message env message w).2 ≠ OutOfFuel.
Proof.
  destruct message as [[topic message_bytes] description].
  unfold send_message, time_time, kafka_call, print, emit.
  rewrite !M_bind_unfold. simpl.
  destruct (kafka env (kafka_calls w)) as [receipt|]; simpl;
    rewrite ?sent_app; simpl; by rewrite ?app_nil_r.
Qed.

Lemma kafka_call_sent env e w :
  (∀ topic key value, e ≠ Send topic key value) →
  sent (trace (kafka_call env e w).1) = sent (trace w) ∧
  (kafka_call env e w).2 ≠ OutOfFuel.
Proof.
  intros He. unfold kafka_call.
  destruct (kafka env (kafka_calls w)) as [receipt|]; simpl;
    rewrite sent_app; destruct e; simpl; rewrite ?app_nil_r; try done;
    by destruct (He topic key value).
Qed.

(** The sends of the loop of lines 177-182 are those of the first messages
    of the corpus, in order: all of them if the loop comes to its end. *)
Lemma for_each_send_sent env messages : ∀ w,
  ∃ k, sent (trace (for_each (λ message, send_message env message;; emit (Sleep 1))
                             messages w).1)
       = sent (trace w) ++ take k ((λ message, (message.1.1, message.1.2)) <$> messages) ∧
       ((for_each (λ message, send_message env message;; emit (Sleep 1)) messages w).2
          = Return () → k = length messages) ∧
       (for_each (λ message, send_message env message;; emit (Sleep 1)) messages w).2
         ≠ OutOfFuel.
Proof.
  induction messages as [|message messages IH]; intros w.
  - exists 0%nat. simpl. by rewrite app_nil_r.
  - destruct (send_message_sent env message w) as [Hsent Hfuel].
    simpl. rewrite !M_bind_unfold.
    destruct (send_message env message w) as [w1 [[]|e|]] eqn:Hsend; simpl in *.
    + destruct (IH {| trace := trace w1 ++ [Sleep 1]; clock_reads := clock_reads w1;
                      kafka_calls := kafka_calls w1 |}) as (k & Hk & Hall & Hfuel').
      exists (S k). simpl in Hk. rewrite sent_app, Hsent in Hk. simpl in Hk.
      rewrite app_nil_r, <- app_assoc in Hk.
      split_and!; [exact Hk| |done]. intros H. by rewrite (Hall H).
    + exists 1%nat. simpl. rewrite take_0. by split_and!.
    + done.
Qed.

Lemma burst_sent env messages w :
  ∃ k, sent (trace (burst env messages w).1)
       = sent (trace w) ++ take k ((λ message, (message.1.1, message.1.2)) <$> messages) ∧
       ((burst env messages w).2 = Return () → k = length messages) ∧
       (burst env messages w).2 ≠ OutOfFuel.
Proof.
  destruct (for_each_send_sent env messages w) as (k & Hk & Hall & Hfuel).
  exists k. unfold burst. rewrite M_bind_unfold.
  destruct (for_each _ messages w) as [w1 [[]|e|]]; simpl in *; [|done..].
  destruct (kafka_call_sent env Flush w1) as [Hflush Hfuel1]; [done|].
  rewrite M_bind_unfold.
  destruct (kafka_call env Flush w1) as [w2 [receipt|e|]]; simpl in *;
    [|by rewrite Hflush|done].
  destruct (kafka_call_sent env Close w2) as [Hclose Hfuel2]; [done|].
  rewrite M_bind_unfold.
  destruct (kafka_call env Close w2) as [w3 [receipt'|e|]]; simpl in *;
    [|by rewrite Hclose, Hflush|done].
  rewrite Hclose, Hflush. split_and!; [done| |done]. intros _. by apply Hall.
Qed.

(** ** The claims on the corpus and on main *)

Lemma test_descriptors_loaded : load_descriptors test_descriptors = Return test_loaded.
Proof. by vm_compute. Qed.

Lemma test_messages_created :
  create_sample_messages (time_ms (test_env None)) (ld_store test_loaded)
  = Return test_messages.
Proof. by vm_compute. Qed.

Lemma test_env_up : broker_up (test_env None).
Proof. intros n. simpl. eauto. Qed.

(** C10. When [create_sample_messages] returns, the corpus has 8 entries: the
    users of indices 0 to 4 for [user-events], then the orders of indices 0
    to 2 for [order-events]; a burst that comes to its end has sent these 8
    payloads to these topics, in this order, and nothing else, and with the
    broker up the burst does come to its end. *)
Theorem create_sample_messages_corpus (clock : nat → Z) (st : Store)
    (messages : list (string * Payload * string)) :
  create_sample_messages clock st = Return messages →
  length messages = 8%nat ∧
  messages.*1.*1 = replicate 5 "user-events" ++ replicate 3 "order-events" ∧
  messages.*2 = ["User 0"; "User 1"; "User 2"; "User 3"; "User 4";
                 "Order 0"; "Order 1"; "Order 2"] ∧
  (∃ user_class order_class,
     user_desc (find_message_types st) = Some user_class ∧
     order_desc (find_message_types st) = Some order_class ∧
     messages = corpus user_class order_class clock) ∧
  (∀ env w w',
     burst env messages w = (w', Return ()) →
     sent (trace w')
     = sent (trace w) ++ ((λ message, (message.1.1, message.1.2)) <$> messages)) ∧
  (∀ env w, broker_up env → ∃ w', burst env messages w = (w', Return ())).
Proof.
  intros (user_class & order_class & Huser & Horder & _ & ->)%create_sample_messages_Return.
  split_and!; [done|done|by vm_compute|by eauto| |].
  - intros env w w' Hburst.
    destruct (burst_sent env (corpus user_class order_class clock) w) as (k & Hk & Hall & _).
    rewrite Hburst in Hk, Hall. simpl in Hk, Hall.
    rewrite Hk, (Hall eq_refl). by rewrite take_ge by (simpl; lia).
  - intros env w Hup.
    destruct (burst_spec env (corpus user_class order_class clock) w Hup)
      as (w' & Hburst & _).
    by exists w'.
Qed.

Lemma create_sample_messages_corpus_witness :
  create_sample_messages (time_ms (test_env None)) (ld_store test_loaded)
    = Return test_messages ∧
  length test_messages = 8%nat.
Proof.
  split; [exact test_messages_created|].
  exact (proj1 (create_sample_messages_corpus _ _ _ test_messages_created)).
Defined.




(** C8, as the code has it. Once the descriptor set is loaded and the corpus
    built, and as long as no call to the producer raises, main never
    returns: whatever the number of turns of the background loop, it is still
    running, and after the burst each turn slept 30 seconds, opened a
    connection, sent the first user message to [user-events] and the last
    order message to [order-events] and nothing else, flushed and closed.
    The loop itself has no way to return. *)
Theorem main_background_loop (fuel : nat) (env : Env) (file : FileDescriptorSet)
    (ld : Loaded) (messages : list (string * Payload * string)) :
  read_descriptor_set env (descriptor_file env) = Some file →
  load_descriptors file = Return ld →
  create_sample_messages (time_ms env) (ld_store ld) = Return messages →
  broker_up env →
  ∃ user_class order_class w',
    let user_msg := ("user-events", user_payload user_class 0, "User 0") in
    let order_msg :=
      ("order-events", order_payload order_class (time_ms env 2) 2, "Order 2") in
    head messages = Some user_msg ∧ last messages = Some order_msg ∧
    main fuel env initial_world = (w', OutOfFuel) ∧
    calls (trace w')
    = [Sleep 10; Connect (kafka_brokers env)] ++ burst_sends env messages 3
      ++ [Flush; Close]
      ++ cycles env (kafka_brokers env) user_msg order_msg 11 fuel ∧
    (∀ w, (background_loop fuel env (kafka_brokers env) messages w).2 ≠ Return ()).
Proof.
  intros Hread Hload Hcreate Hup.
  pose proof Hcreate as
    (user_class & order_class & _ & _ & _ & Hcorpus)%create_sample_messages_Return.
  exists user_class, order_class.
  assert (head messages = Some ("user-events", user_payload user_class 0, "User 0")) as Hhead
    by by rewrite Hcorpus.
  assert (last messages
          = Some ("order-events", order_payload order_class (time_ms env 2) 2, "Order 2"))
    as Hlast by by rewrite Hcorpus.
  destruct (main_running fuel env file ld messages _ _ initial_world
              Hread Hload Hcreate Hhead Hlast Hup) as (w' & Hmain & Hcalls & _).
  exists w'. simpl. split_and!; [done..| |apply background_loop_no_return].
  rewrite Hcalls. simpl. by rewrite Hcorpus.
Qed.

Lemma main_background_loop_witness :
  ∃ w', main 2 (test_env None) initial_world = (w', OutOfFuel).
Proof.
  destruct (main_background_loop 2 (test_env None) test_descriptors test_loaded
              test_messages eq_refl test_descriptors_loaded test_messages_created
              test_env_up) as (? & ? & w' & _ & _ & Hmain & _).
  by exists w'.
Defined.

(** C8, as stated, fails when a call to the producer raises: in the world of
    the test where the first send of the background loop fails, main leaves
    the loop in its first turn and returns 1; after the burst it slept,
    connected and tried the user message, and neither sent the order message
    nor closed the connection. *)
Lemma main_leaves_background_loop :
  ∃ w', main 5 (test_env (Some 12%nat)) initial_world = (w', Return 1) ∧
        drop 20 (calls (trace w'))
        = [Sleep 30; Connect "localhost:9092";
           Send "user-events" "key-1700000011" (user_payload test_user_class 0)].
Proof. eexists. split; [vm_compute; reflexivity|]. by vm_compute. Qed.

(** * Further properties of the loader *)




(** X2. The references between the objects that the loader builds never form
    a cycle: every dependency reference of an object is the address of an
    object that was built before it, and an object has one reference per
    declared dependency. *)
Theorem load_descriptors_acyclic (file : FileDescriptorSet) :
  ∃ ld, load_descriptors file = Return ld ∧
    ∀ r fd, heap (ld_store ld) !! r = Some fd →
      length (fd_dependencies fd) = length (proto_dependency (fd_serialized_pb fd)) ∧
      ∀ r', r' ∈ fd_dependencies fd →
            (r' < r)%nat ∧ is_Some (heap (ld_store ld) !! r').
Proof.
  destruct (load_descriptors_spec file) as (ld & Hrun & Hok & _).
  pose proof (with_dependencies_length file).
  exists ld. split; [apply Hrun; lia|].
  intros r fd Hfd. destruct (ok_heap _ _ Hok r fd Hfd) as ((_ & Hlinks) & _ & _).
  split; [symmetry; by eapply Forall2_length|].
  intros r' [i Hi]%list_elem_of_lookup.
  destruct (Forall2_lookup_r _ _ _ _ _ Hlinks Hi) as (dep & _ & Hlt & fd' & Hfd' & _).
  eauto.
Qed.



(** ** How many objects, and in which order *)

Lemma length_dict_set {V} (d : dict V) k v :
  (length (dict_set k v d) ≤ S (length d))%nat.
Proof.
  induction d as [|[k0 v0] d IH]; simpl; [lia|]. case_decide; simpl; lia.
Qed.

Lemma compact_resolve_file fp deps st : compact st → compact (resolve_file fp deps st).
Proof.
  unfold compact; simpl. rewrite length_app; simpl. intros H.
  etrans; [apply length_dict_set|]. lia.
Qed.

(** The seeding pass builds the records without dependencies, in the order
    of the descriptor set, after the objects that are there. *)
Lemma first_pass_heap l : ∀ st,
  heap (first_pass l st)
  = heap st ++ ((λ fp, new_FileDescriptor fp [])
                  <$> filter (λ fp, proto_dependency fp = []) l) ∧
  (compact st → compact (first_pass l st)).
Proof.
  induction l as [|fp l IH]; intros st.
  - simpl. by rewrite app_nil_r.
  - rewrite first_pass_cons, filter_cons.
    destruct (proto_dependency fp) as [|dep deps] eqn:Hdeps.
    + rewrite decide_True by done.
      destruct (IH (resolve_file fp [] st)) as [-> Hcompact]. simpl.
      rewrite <- app_assoc. split; [done|].
      intros ?. by apply Hcompact, compact_resolve_file.
    + rewrite decide_False by done. apply IH.
Qed.

Lemma foldl_pass_step_count l : ∀ st resolved,
  (length (heap (foldl pass_step (st, resolved) l).1) + length resolved
   = length (heap st) + length (foldl pass_step (st, resolved) l).2)%nat ∧
  (compact st → compact (foldl pass_step (st, resolved) l).1).
Proof.
  induction l as [|fp l IH]; intros st resolved; simpl; [done|].
  destruct (decide (ready st fp)) as [Hready|Hready].
  - rewrite pass_step_ready by done.
    destruct (IH (resolve_file fp (linked_dependencies st fp) st) (resolved ++ [fp]))
      as [Hcount Hcompact].
    simpl in Hcount. rewrite !length_app in Hcount. simpl in Hcount.
    split; [lia|]. intros ?. by apply Hcompact, compact_resolve_file.
  - rewrite pass_step_not_ready by done. apply IH.
Qed.

Lemma remove_resolved_length new : ∀ l l',
  remove_resolved new l = Some l' → length l = (length new + length l')%nat.
Proof.
  induction new as [|x new IH]; intros l l'; simpl.
  - by intros [= ->].
  - destruct (list_remove x l) as [l1|] eqn:Hl1; [|done].
    intros Hrest%IH. apply list_remove_Some in Hl1. rewrite Hl1. simpl. lia.
Qed.

(** Every record that leaves [remaining] makes one object. *)
Lemma resolve_loop_count fuel : ∀ st remaining passes ld,
  resolve_loop fuel st remaining passes = Return ld →
  (length (heap (ld_store ld)) + length (ld_remaining ld)
   = length (heap st) + length remaining)%nat ∧
  (compact st → compact (ld_store ld)) ∧
  heap st `prefix_of` heap (ld_store ld).
Proof.
  induction fuel as [|fuel IH]; intros st remaining passes ld.
  { destruct remaining; [|done]. by intros [= <-]. }
  destruct remaining as [|fp0 rest]; [by intros [= <-]|].
  rewrite resolve_loop_turn by done. unfold one_pass.
  destruct (foldl_pass_step_count (fp0 :: rest) st []) as [Hcount Hcompact].
  destruct (foldl pass_step (st, []) (fp0 :: rest)) as [st' resolved] eqn:Hpass.
  simpl in Hcount, Hcompact.
  destruct (remove_resolved resolved (fp0 :: rest)) as [remaining'|] eqn:Hremove; [|done].
  apply remove_resolved_length in Hremove.
  assert (heap st `prefix_of` heap st') as Hprefix.
  { clear -Hpass. revert st st' resolved Hpass. generalize (@nil FileDescriptorProto).
    induction (fp0 :: rest) as [|fp l IHl]; intros acc st st' resolved; simpl.
    - by intros [= <- _].
    - destruct (decide (ready st fp)) as [Hready|Hready].
      + rewrite pass_step_ready by done. intros H%IHl.
        etrans; [|exact H]. simpl. by eexists.
      + rewrite pass_step_not_ready by done. apply IHl. }
  destruct resolved as [|x resolved]; [destruct remaining' as [|y remaining']|].
  - intros H%IH. simpl in *. destruct H as (? & ? & ?).
    split_and!; [lia|by auto|by etrans].
  - intros [= <-]. simpl in *. split_and!; [lia|done|done].
  - intros H%IH. simpl in *. destruct H as (? & ? & ?).
    split_and!; [lia|by auto|by etrans].
Qed.


(** X5. The objects of the records without dependencies come first, in the
    order of the descriptor set: the loader builds them in its seeding pass,
    before any record with dependencies. *)
Theorem load_descriptors_seeding_order (file : FileDescriptorSet) :
  ∃ ld, load_descriptors file = Return ld ∧
        ((λ fp, new_FileDescriptor fp [])
           <$> filter (λ fp, proto_dependency fp = []) file)
        `prefix_of` heap (ld_store ld).
Proof.
  destruct (load_descriptors_returns file) as (ld & Hld & _).
  exists ld. split; [done|].
  unfold load_descriptors, load_descriptors_fuel in Hld.
  apply resolve_loop_count in Hld as (_ & _ & Hprefix).
  destruct (first_pass_heap file empty_store) as [Hheap _].
  by rewrite Hheap in Hprefix.
Qed.

(** * Further properties of main *)

(** ** main does not return 0 *)

Lemma never_returns_bind {A B} (m : M A) (f : A → M B) :
  (∀ a, never_returns (f a)) → never_returns (m ≫= f).
Proof.
  intros Hf w b. rewrite M_bind_unfold.
  destruct (m w) as [w1 [a|e|]]; simpl; [apply Hf|done..].
Qed.

Lemma background_loop_never_returns fuel env brokers messages :
  never_returns (background_loop fuel env brokers messages).
Proof. intros w []. apply background_loop_no_return. Qed.

Lemma main_try_never_returns fuel env brokers path :
  never_returns (main_try fuel env brokers path).
Proof.
  unfold main_try.
  repeat (apply never_returns_bind; intros ?).
  apply background_loop_never_returns.
Qed.

Lemma try_except_status body w :
  never_returns body →
  (try_except body w).2 = Return 1 ∨ (try_except body w).2 = OutOfFuel.
Proof.
  intros Hbody. unfold try_except. specialize (Hbody w).
  destruct (body w) as [w' [a|e|]]; simpl in *; [by destruct (Hbody a)|by left|by right].
Qed.

(** X6. main never returns 0 and lets no exception out: whatever the world,
    either it returns 1 or it is still running (the [return 0] of line 218
    is never reached). *)
Theorem main_exit_status (fuel : nat) (env : Env) (w : World) :
  (main fuel env w).2 = Return 1 ∨ (main fuel env w).2 = OutOfFuel.
Proof.
  destruct (main_unfold fuel env w) as (w0 & _ & ->).
  apply try_except_status, main_try_never_returns.
Qed.

(** ** main without a descriptor set *)

Lemma load_descriptors_nil : load_descriptors [] = Return
  {| ld_store := empty_store; ld_remaining := []; ld_passes := 0; ld_warning := None |}.
Proof. done. Qed.

(** X7. When the descriptor file cannot be read, or holds no file, main
    reports an error and returns 1 after its first sleep, without a call to
    the producer. *)
Theorem main_without_descriptors (fuel : nat) (env : Env) (w : World) :
  read_descriptor_set env (descriptor_file env) = None ∨
  read_descriptor_set env (descriptor_file env) = Some [] →
  ∃ w', main fuel env w = (w', Return 1) ∧
        kafka_calls w' = kafka_calls w ∧
        calls (trace w') = calls (trace w) ++ [Sleep 10].
Proof.
  intros [Hread|Hread].
  - destruct (main_unfold fuel env w) as (w0 & (Hcalls & _ & Hkafka) & ->).
    eexists. split.
    + apply try_except_Raise. unfold main_try. apply M_bind_Raise.
      unfold load_descriptors_from. rewrite print_bind, Hread. reflexivity.
    + simpl. rewrite !calls_snoc. simpl. rewrite !app_nil_r.
      split; [lia|done].
  - destruct (main_missing_type fuel env [] _ w Hread load_descriptors_nil)
      as (w' & Hmain & Hcalls & _ & Hkafka); [by left|].
    exists w'. split_and!; [done|lia|done].
Qed.

Lemma main_without_descriptors_witness :
  ∃ w', main 4 (world_of [] None) initial_world = (w', Return 1) ∧
        kafka_calls w' = 0%nat.
Proof.
  destruct (main_without_descriptors 4 (world_of [] None) initial_world)
    as (w' & Hmain & Hkafka & _); [by right|].
  by exists w'.
Defined.

(** ** main and a broker that refuses a call *)

Lemma made_calls_refl env w : made_calls env w w 0.
Proof. split; [lia|]. intros n ?. lia. Qed.

Lemma made_calls_trans env w1 w2 w3 k1 k2 :
  made_calls env w1 w2 k1 → made_calls env w2 w3 k2 →
  made_calls env w1 w3 (k1 + k2).
Proof.
  intros [H1 Hok1] [H2 Hok2]. split; [lia|].
  intros n ?. destruct (decide (n < kafka_calls w2)%nat); [apply Hok1|apply Hok2]; lia.
Qed.

Lemma made_calls_stopped env w1 w2 w3 k1 :
  made_calls env w1 w2 k1 → stopped_by_broker env w2 w3 →
  stopped_by_broker env w1 w3.
Proof.
  intros [H1 Hok1] (Hlt & Hok2 & Hnone). split_and!; [lia| |done].
  intros n ?. destruct (decide (n < kafka_calls w2)%nat); [apply Hok1|apply Hok2]; lia.
Qed.

Lemma steps_bind {A B} env k1 k2 (m : M A) (f : A → M B) :
  steps env k1 m → (∀ a, steps env k2 (f a)) → steps env (k1 + k2) (m ≫= f).
Proof.
  intros Hm Hf w. rewrite M_bind_unfold. specialize (Hm w).
  destruct (m w) as [w1 [a|e|]]; simpl in *; [|done..].
  specialize (Hf a w1). destruct (f a w1) as [w2 [b|e|]]; simpl in *; [| |done].
  - by eapply made_calls_trans.
  - by eapply made_calls_stopped.
Qed.

Lemma loops_bind {A B} env k1 k2 (m : M A) (f : A → M B) :
  steps env k1 m → (∀ a, loops env k2 (f a)) → loops env (k1 + k2) (m ≫= f).
Proof.
  intros Hm Hf w. rewrite M_bind_unfold. specialize (Hm w).
  destruct (m w) as [w1 [a|e|]]; simpl in *; [|done..].
  specialize (Hf a w1). destruct (f a w1) as [w2 [b|e|]]; simpl in *; [done| |].
  - by eapply made_calls_stopped.
  - by eapply made_calls_trans.
Qed.

Lemma steps_ret {A} env (a : A) : steps env 0 (mret a).
Proof. intros w. apply made_calls_refl. Qed.

Lemma steps_emit env e : steps env 0 (emit e).
Proof. intros w. simpl. split; simpl; [lia|]. intros n ?. lia. Qed.

Lemma steps_time_time env : steps env 0 (time_time env).
Proof. intros w. simpl. split; simpl; [lia|]. intros n ?. lia. Qed.

(** A call to the producer is one call: taken, or refused. *)
Lemma steps_kafka_call env e : steps env 1 (kafka_call env e).
Proof.
  intros w. unfold kafka_call.
  destruct (kafka env (kafka_calls w)) as [receipt|] eqn:Hcall; simpl.
  - split; simpl; [lia|]. intros n ?. replace n with (kafka_calls w) by lia. eauto.
  - split_and!; simpl; [lia| |by rewrite Nat.sub_0_r].
    intros n ?. lia.
Qed.

Lemma steps_send_message env message : steps env 1 (send_message env message).
Proof.
  destruct message as [[topic message_bytes] description]. unfold send_message.
  apply (steps_bind env 0 1); [apply steps_time_time|]. intros now.
  apply (steps_bind env 1 0); [apply steps_kafka_call|]. intros receipt.
  apply steps_emit.
Qed.

Lemma steps_for_each {A} env k (body : A → M ()) (l : list A) :
  (∀ x, steps env k (body x)) → steps env (length l * k) (for_each body l).
Proof.
  intros Hbody. induction l as [|x l IH]; simpl; [apply steps_ret|].
  apply steps_bind; [apply Hbody|]. by intros _.
Qed.

Lemma steps_burst env messages : steps env (length messages + 2) (burst env messages).
Proof.
  unfold burst.
  apply steps_bind.
  - replace (length messages) with (length messages * 1)%nat by lia.
    apply steps_for_each. intros message.
    apply (steps_bind env 1 0); [apply steps_send_message|]. intros _. apply steps_emit.
  - intros _. apply (steps_bind env 1 1); [apply steps_kafka_call|]. intros _.
    apply (steps_bind env 1 0); [apply steps_kafka_call|]. intros _. apply steps_ret.
Qed.

Lemma steps_background_cycle env brokers messages :
  messages ≠ [] → steps env 5 (background_cycle env brokers messages).
Proof.
  intros Hmessages. unfold background_cycle, first_message, last_message.
  destruct (head messages) as [user_msg|] eqn:Hhead;
    [|by destruct messages].
  destruct (last messages) as [order_msg|] eqn:Hlast;
    [|by apply last_None in Hlast].
  apply (steps_bind env 0 5); [apply steps_emit|]. intros _.
  apply (steps_bind env 1 4); [apply steps_kafka_call|]. intros _.
  apply (steps_bind env 0 4); [apply steps_ret|]. intros first.
  apply (steps_bind env 0 4); [apply steps_ret|]. intros final.
  apply (steps_bind env 2 2); [apply (steps_for_each env 1 _ [_; _]), steps_send_message|].
  intros _.
  apply (steps_bind env 1 1); [apply steps_kafka_call|]. intros _.
  apply (steps_bind env 1 0); [apply steps_kafka_call|]. intros _. apply steps_ret.
Qed.

Lemma loops_background_loop env brokers messages fuel :
  messages ≠ [] → loops env (5 * fuel) (background_loop fuel env brokers messages).
Proof.
  intros Hmessages. induction fuel as [|fuel IH]; simpl background_loop.
  - intros w. simpl. apply made_calls_refl.
  - replace (5 * S fuel)%nat with (5 + 5 * fuel)%nat by lia.
    apply loops_bind; [by apply steps_background_cycle|]. by intros _.
Qed.

(** From the corpus on, main makes one call to connect, the calls of the
    burst and five calls per turn of the loop. *)
Lemma loops_main_rest env fuel messages :
  messages ≠ [] →
  loops env (1 + (length messages + 2 + 5 * fuel))
    (print ("Created " +:+ pretty (length messages) +:+ " sample messages");;
     kafka_call env (Connect (kafka_brokers env));;
     print "Producing messages to Kafka...";;
     burst env messages;;
     print "All messages sent successfully!";;
     print "Continuing to produce messages every 30 seconds...";;
     background_loop fuel env (kafka_brokers env) messages).
Proof.
  intros Hmessages.
  apply (loops_bind env 0 (1 + (length messages + 2 + 5 * fuel)));
    [apply steps_emit|]. intros _.
  apply (loops_bind env 1 (length messages + 2 + 5 * fuel));
    [apply steps_kafka_call|]. intros _.
  apply (loops_bind env 0 (length messages + 2 + 5 * fuel));
    [apply steps_emit|]. intros _.
  apply (loops_bind env (length messages + 2) (5 * fuel)); [apply steps_burst|]. intros _.
  apply (loops_bind env 0 (5 * fuel)); [apply steps_emit|]. intros _.
  apply (loops_bind env 0 (5 * fuel)); [apply steps_emit|]. intros _.
  by apply loops_background_loop.
Qed.

(** X8. With the descriptor set loaded and the corpus built, main comes to
    its end when the broker refuses a call: if the call of number [n] is the
    first one that is refused and the loop is given enough turns to reach it,
    main returns 1, and the refused call is the last call that it made to the
    producer. *)
Theorem main_stops_at_first_refusal (fuel : nat) (env : Env) (file : FileDescriptorSet)
    (ld : Loaded) (messages : list (string * Payload * string)) (n : nat) :
  read_descriptor_set env (descriptor_file env) = Some file →
  load_descriptors file = Return ld →
  create_sample_messages (time_ms env) (ld_store ld) = Return messages →
  kafka env n = None → calls_ok env 0 n →
  (n < 11 + 5 * fuel)%nat →
  ∃ w', main fuel env initial_world = (w', Return 1) ∧ kafka_calls w' = S n.
Proof.
  intros Hread Hload Hcreate Hrefused Htaken Hfuel.
  destruct (main_unfold fuel env initial_world) as (w0 & Hadv0 & ->).
  destruct (main_try_create fuel env file ld w0 Hread Hload) as (w1 & Hadv1 & Htry).
  pose proof (advances_trans _ _ _ _ _ _ _ _ _ Hadv0 Hadv1) as (_ & Hr1 & Hk1).
  simpl in Hr1, Hk1.
  assert (create_sample_messages (λ k, time_ms env (clock_reads w1 + k)%nat) (ld_store ld)
          = Return messages) as Hcreate1 by by rewrite Hr1.
  destruct (create_sample_messages_now_spec env _ messages w1 Hcreate1)
    as (w2 & Hnow & (_ & _ & Hk2)).
  assert (length messages = 8%nat) as Hlen.
  { by apply create_sample_messages_Return in Hcreate as (? & ? & _ & _ & _ & ->). }
  assert (messages ≠ []) as Hmessages by by destruct messages.
  rewrite (M_bind_Return _ _ _ _ _ Hnow) in Htry.
  pose proof (loops_main_rest env fuel messages Hmessages w2) as Hrest.
  rewrite <- Htry in Hrest.
  destruct (main_try fuel env (kafka_brokers env) (descriptor_file env) w0)
    as [w' [[]|e|]] eqn:Hbody; simpl in Hrest; [done| |].
  - destruct Hrest as (Hlt & Hok & Hnone).
    eexists. split; [by apply try_except_Raise|]. simpl.
    assert (kafka_calls w2 = 0%nat) as Hk0 by lia. rewrite Hk0 in Hok.
    destruct (decide (kafka_calls w' - 1 < n)%nat) as [Hbefore|Hafter].
    { destruct (Htaken (kafka_calls w' - 1)%nat) as [? Htook]; [lia|congruence]. }
    destruct (decide (n < kafka_calls w' - 1)%nat) as [Hlater|Hsame]; [|lia].
    destruct (Hok n) as [? Htook]; [lia|congruence].
  - destruct Hrest as (Hcount & Hok).
    destruct (Hok n) as [? Htook]; [lia|congruence].
Qed.

Lemma main_stops_at_first_refusal_witness :
  ∃ w', main 5 (test_env (Some 12%nat)) initial_world = (w', Return 1) ∧
        kafka_calls w' = 13%nat.
Proof.
  apply (main_stops_at_first_refusal 5 (test_env (Some 12%nat)) test_descriptors
           test_loaded test_messages 12).
  - reflexivity.
  - exact test_descriptors_loaded.
  - exact test_messages_created.
  - reflexivity.
  - intros n Hn. simpl. rewrite decide_False; [eauto|]. intros [= Heq]. lia.
  - lia.
Defined.

(** * Further properties of the sample messages and of the test script *)

Ltac split_fields :=
  unfold address_fields, user_fields, order_fields in *;
  repeat match goal with
         | H : Forall _ (_ :: _) |- _ => apply Forall_cons in H as [? H]
         end.

Ltac writes_accepted :=
  repeat match goal with
         | |- context [decide (?field ∈ ?fields)] =>
             rewrite (decide_True (P := field ∈ fields)) by assumption; simpl
         end.

(** An iteration of the first loop returns exactly when the two classes
    declare the fields that it writes. *)
Lemma sample_user_fields address_class user_class i :
  (∃ r, sample_user address_class user_class i = Return r) ↔
  Forall (.∈ desc_fields address_class) address_fields ∧
  Forall (.∈ desc_fields user_class) user_fields.
Proof.
  split.
  - intros [r H]. unfold sample_user, setattr, extend, CopyFrom in H. simpl in H.
    accept_writes H. split; repeat constructor; assumption.
  - intros [Ha Hu]. split_fields.
    unfold sample_user, setattr, extend, CopyFrom. simpl. writes_accepted. eauto.
Qed.

Lemma sample_order_fields address_class user_class order_class now_ms i r :
  sample_order address_class user_class order_class now_ms i = Return r →
  Forall (.∈ desc_fields order_class) order_fields.
Proof.
  intros H. unfold sample_order, setattr, CopyFrom, add_item in H. simpl in H.
  accept_writes H. repeat constructor; assumption.
Qed.

Lemma mapM_Return_head {A B} (f : A → Outcome B) x l k :
  mapM f (x :: l) = Return k → ∃ r, f x = Return r.
Proof. simpl. destruct (f x) as [r| |]; [eauto|done..]. Qed.

(** X9. [create_sample_messages] only returns for a schema that declares
    every field it writes: [street], [city], [country] and [zip_code] in
    [Address]; [id], [name], [email], [tags], [type] and [address] in
    [User]; [id], [user], [total_amount], [status], [created_timestamp] and
    [items] in [Order]. *)
Theorem create_sample_messages_fields (clock : nat → Z) (st : Store)
    (messages : list (string * Payload * string)) :
  create_sample_messages clock st = Return messages →
  ∃ user_class order_class address_class,
    user_desc (find_message_types st) = Some user_class ∧
    order_desc (find_message_types st) = Some order_class ∧
    address_desc (find_message_types st) = Some address_class ∧
    Forall (.∈ desc_fields address_class) address_fields ∧
    Forall (.∈ desc_fields user_class) user_fields ∧
    Forall (.∈ desc_fields order_class) order_fields.
Proof.
  unfold create_sample_messages.
  destruct (user_desc _) as [user_class|]; [|done].
  destruct (order_desc _) as [order_class|]; [|done].
  destruct (address_desc _) as [address_class|]; [|done].
  destruct_loop 5%nat users Husers; [|done..].
  destruct_loop 3%nat orders Horders; [|done..].
  intros _. exists user_class, order_class, address_class.
  apply mapM_Return_head in Husers as [r Hr].
  apply mapM_Return_head in Horders as [r' Hr'].
  destruct (proj1 (sample_user_fields _ _ _) (ex_intro _ r Hr)) as [Ha Hu].
  apply sample_order_fields in Hr'. by split_and!.
Qed.

Lemma create_sample_messages_fields_witness :
  ∃ user_class, user_desc (find_message_types (ld_store test_loaded)) = Some user_class ∧
                Forall (.∈ desc_fields user_class) user_fields.
Proof.
  destruct (create_sample_messages_fields _ _ _ test_messages_created)
    as (user_class & _ & _ & Huser & _ & _ & _ & Hfields & _).
  by exists user_class.
Defined.

(** ** The test script *)

















(** * Further properties of the burst and of the loader in the world *)



